(** * Recipes of the embedded package set and the build orchestrator core

    The five Conan recipes of the repository (cmsis, freertos,
    st67w6x_network_driver, stm32g4_hal_driver, arm-none-eabi-gcc) are
    translated method by method.  The orchestrator core that consumes them
    (dependency resolution, packaging engine, artifact acquisition and
    build-info composition) is not part of the repository's sources; it is
    modelled from its specification, each such definition saying so. *)

From Stdlib Require Import String Ascii List Bool Arith Lia Permutation.
From Stdlib Require Import Relations Relation_Operators OrdersEx.
From stdpp Require Import base gmap strings list.
Import ListNotations.
Open Scope string_scope.
Open Scope list_scope.

(* ------------------------------------------------------------------ *)
(** ** Python text: UTF-8 decoding and [str.strip] *)

(** A Python [str]: its sequence of Unicode code points. *)
Definition pystr := list N.

(** [str.isspace] on one code point: the characters of bidirectional
    class WS, B or S or of general category Zs, that is U+0009-U+000D,
    U+001C-U+001F, U+0020, U+0085, U+00A0, U+1680, U+2000-U+200A,
    U+2028, U+2029, U+202F, U+205F and U+3000. *)
Definition py_isspace (c : N) : bool :=
  ((9 <=? c) && (c <=? 13))%N || ((28 <=? c) && (c <=? 32))%N ||
  (c =? 133)%N || (c =? 160)%N || (c =? 5760)%N ||
  ((8192 <=? c) && (c <=? 8202))%N || (c =? 8232)%N || (c =? 8233)%N ||
  (c =? 8239)%N || (c =? 8287)%N || (c =? 12288)%N.

Fixpoint lstrip_chars (l : pystr) : pystr :=
  match l with
  | [] => []
  | c :: l' => if py_isspace c then lstrip_chars l' else l
  end.

(** [s.strip()]: leading and trailing whitespace removed. *)
Definition py_strip (s : pystr) : pystr :=
  rev (lstrip_chars (rev (lstrip_chars s))).

(** [lo <= b <= hi] for a byte [b]. *)
Definition in_range (lo hi : N) (b : ascii) : bool :=
  (lo <=? N_of_ascii b)%N && (N_of_ascii b <=? hi)%N.

(** Python's strict ["utf-8"] codec (RFC 3629, table 3-7 of Unicode):
    [None] is the [UnicodeDecodeError] it raises on an invalid start
    byte, an invalid or missing continuation byte, an overlong form, a
    surrogate or a code point beyond U+10FFFF. *)
Fixpoint utf8_decode (bs : list ascii) : option pystr :=
  match bs with
  | [] => Some []
  | b0 :: r =>
      let n0 := N_of_ascii b0 in
      if (n0 <? 128)%N then option_map (cons n0) (utf8_decode r)
      else if in_range 194 223 b0 then
        match r with
        | b1 :: r1 =>
            if in_range 128 191 b1
            then option_map (cons ((n0 - 192) * 64 + (N_of_ascii b1 - 128))%N)
                   (utf8_decode r1)
            else None
        | _ => None
        end
      else if in_range 224 239 b0 then
        let lo1 := if (n0 =? 224)%N then 160%N else 128%N in
        let hi1 := if (n0 =? 237)%N then 159%N else 191%N in
        match r with
        | b1 :: b2 :: r2 =>
            if in_range lo1 hi1 b1 && in_range 128 191 b2
            then option_map (cons ((n0 - 224) * 4096 + (N_of_ascii b1 - 128) * 64
                                   + (N_of_ascii b2 - 128))%N)
                   (utf8_decode r2)
            else None
        | _ => None
        end
      else if in_range 240 244 b0 then
        let lo1 := if (n0 =? 240)%N then 144%N else 128%N in
        let hi1 := if (n0 =? 244)%N then 143%N else 191%N in
        match r with
        | b1 :: b2 :: b3 :: r3 =>
            if in_range lo1 hi1 b1 && in_range 128 191 b2 && in_range 128 191 b3
            then option_map (cons ((n0 - 240) * 262144 + (N_of_ascii b1 - 128) * 4096
                                   + (N_of_ascii b2 - 128) * 64 + (N_of_ascii b3 - 128))%N)
                   (utf8_decode r3)
            else None
        | _ => None
        end
      else None
  end.

(* ------------------------------------------------------------------ *)
(** ** Recipe folders and [conan.tools.files.load] *)

(** A recipe folder: file name to the file's bytes, a [string] read as
    its sequence of 8-bit characters ([None]: no such file). *)
Definition folder := string -> option string.

Inductive load_error :=
| FileNotFound (path : string)
| UnicodeDecodeError (path : string).

(** [load(self, path)]: [open(path, "r", encoding="utf-8",
    newline="").read()], the file's bytes decoded as UTF-8 with no
    newline translation; it raises when the file does not exist or is
    not valid UTF-8.  The path is recorded in the read trace. *)
Definition load (fs : folder) (path : string)
  : list string * (load_error + pystr) :=
  ([path], match fs path with
           | Some bs =>
               match utf8_decode (list_ascii_of_string bs) with
               | Some s => inr s
               | None => inl (UnicodeDecodeError path)
               end
           | None => inl (FileNotFound path)
           end).

(** [set_version], shared verbatim by all five recipes:
    [self.version = load(self, join(recipe_folder, "version.txt")).strip()]. *)
Definition set_version (fs : folder) : list string * (load_error + pystr) :=
  let '(tr, r) := load fs "version.txt" in
  (tr, match r with inl e => inl e | inr c => inr (py_strip c) end).

(* ------------------------------------------------------------------ *)
(** ** Recipe loader: the version (specification, 4.1) *)

(** The loader that runs a recipe is not part of the repository; it is
    modelled from its specification.  It resolves the version by running
    the recipe's [set_version] once, and fails with [InvalidVersion] when
    the descriptor is missing or the version is empty after trimming
    (Conan's own loader likewise refuses a recipe whose version is left
    empty).  Any other exception of [set_version] is passed on. *)
Inductive loader_error :=
| InvalidVersion
| SetVersionFailed (e : load_error).

Definition load_recipe_version (fs : folder) : list string * (loader_error + pystr) :=
  let '(tr, r) := set_version fs in
  (tr, match r with
       | inl (FileNotFound _) => inl InvalidVersion
       | inl e => inl (SetVersionFailed e)
       | inr [] => inl InvalidVersion
       | inr v => inr v
       end).

(* ------------------------------------------------------------------ *)
(** ** Conan's [cpp_info], [conf_info] and [buildenv_info] *)

Record cpp_info := {
  includedirs : list string;
  libdirs : list string;
  bindirs : list string;
  srcdirs : list string;
}.

(** Conan's default for a package's [cpp_info]
    ([CppInfo(set_defaults=True)]): [includedirs = ["include"]],
    [libdirs = ["lib"]], [bindirs = ["bin"]], no source dirs. *)
Definition default_cpp_info : cpp_info :=
  {| includedirs := ["include"]; libdirs := ["lib"]; bindirs := ["bin"];
     srcdirs := [] |}.

Inductive env_op := Prepend | Append | SetVar.

Record conf_info := {
  conf_compiler_executables : option (list (string * string));
  conf_cflags : option (list string);
  conf_cxxflags : option (list string);
  conf_linkflags : option (list string);
}.

Definition empty_conf : conf_info :=
  {| conf_compiler_executables := None; conf_cflags := None;
     conf_cxxflags := None; conf_linkflags := None |}.

(** The [self.*_info] objects a [package_info] method mutates; the
    [buildenv_info] edits carry a path relative to the package folder. *)
Record info_state := {
  st_cpp : cpp_info;
  st_conf : conf_info;
  st_env : list (string * env_op * string);
}.

Definition default_info_state : info_state :=
  {| st_cpp := default_cpp_info; st_conf := empty_conf; st_env := [] |}.

Definition set_cpp (s : info_state) (c : cpp_info) : info_state :=
  {| st_cpp := c; st_conf := st_conf s; st_env := st_env s |}.

Definition set_conf (s : info_state) (c : conf_info) : info_state :=
  {| st_cpp := st_cpp s; st_conf := c; st_env := st_env s |}.

Definition with_includedirs (c : cpp_info) (l : list string) : cpp_info :=
  {| includedirs := l; libdirs := libdirs c; bindirs := bindirs c; srcdirs := srcdirs c |}.
Definition with_libdirs (c : cpp_info) (l : list string) : cpp_info :=
  {| includedirs := includedirs c; libdirs := l; bindirs := bindirs c; srcdirs := srcdirs c |}.
Definition with_bindirs (c : cpp_info) (l : list string) : cpp_info :=
  {| includedirs := includedirs c; libdirs := libdirs c; bindirs := l; srcdirs := srcdirs c |}.
Definition with_srcdirs (c : cpp_info) (l : list string) : cpp_info :=
  {| includedirs := includedirs c; libdirs := libdirs c; bindirs := bindirs c; srcdirs := l |}.

(* ------------------------------------------------------------------ *)
(** ** The [package_info] methods *)

(** [CmsisHeaderOnly.package_info]: [includedirs = ["include"]]. *)
Definition cmsis_package_info (s : info_state) : info_state :=
  set_cpp s (with_includedirs (st_cpp s) ["include"]).

(** [FreeRTOSConan.package_info]:
    [libdirs = []; bindirs = []; includedirs.append("include")];
    [srcdirs] is not touched and keeps its value. *)
Definition freertos_package_info (s : info_state) : info_state :=
  let s1 := set_cpp s (with_libdirs (st_cpp s) []) in
  let s2 := set_cpp s1 (with_bindirs (st_cpp s1) []) in
  set_cpp s2 (with_includedirs (st_cpp s2) (includedirs (st_cpp s2) ++ ["include"])).

(** [STM32HAL.package_info] of st67w6x_network_driver. *)
Definition st67w6x_package_info (s : info_state) : info_state :=
  let s1 := set_cpp s (with_includedirs (st_cpp s)
                         ["Api"; "Core"; "Driver/W61_at"; "Driver/W61_bus"]) in
  set_cpp s1 (with_srcdirs (st_cpp s1) ["Core"; "Driver/W61_at"; "Driver/W61_bus"]).

(** [STM32HAL.package_info] of stm32g4_hal_driver. *)
Definition stm32g4_package_info (s : info_state) : info_state :=
  let s1 := set_cpp s (with_includedirs (st_cpp s) ["include"; "include/Legacy"]) in
  set_cpp s1 (with_srcdirs (st_cpp s1) ["src"]).

Definition arm_common_flags : list string :=
  ["-mcpu=cortex-m7"; "-mthumb"; "-mfloat-abi=hard"; "-mfpu=fpv5-d16";
   "-specs=nosys.specs"].

Definition arm_compiler_executables : list (string * string) :=
  [("c", "arm-none-eabi-gcc"); ("cpp", "arm-none-eabi-g++");
   ("asm", "arm-none-eabi-gcc"); ("ar", "arm-none-eabi-ar");
   ("objcopy", "arm-none-eabi-objcopy"); ("objdump", "arm-none-eabi-objdump");
   ("nm", "arm-none-eabi-nm"); ("ranlib", "arm-none-eabi-ranlib");
   ("strip", "arm-none-eabi-strip"); ("size", "arm-none-eabi-size")].

(** [ArmGnuToolchain.package_info]: [PATH] gets [<package>/bin] appended,
    and the three flag confs and the executable map are defined. *)
Definition arm_package_info (s : info_state) : info_state :=
  let s1 := {| st_cpp := st_cpp s; st_conf := st_conf s;
               st_env := st_env s ++ [("PATH", Append, "bin")] |} in
  let c := st_conf s1 in
  let c1 := {| conf_compiler_executables := Some arm_compiler_executables;
               conf_cflags := conf_cflags c; conf_cxxflags := conf_cxxflags c;
               conf_linkflags := conf_linkflags c |} in
  let c2 := {| conf_compiler_executables := conf_compiler_executables c1;
               conf_cflags := Some arm_common_flags;
               conf_cxxflags := conf_cxxflags c1; conf_linkflags := conf_linkflags c1 |} in
  let c3 := {| conf_compiler_executables := conf_compiler_executables c2;
               conf_cflags := conf_cflags c2;
               conf_cxxflags := Some (arm_common_flags ++ ["-fno-exceptions"; "-fno-rtti"]);
               conf_linkflags := conf_linkflags c2 |} in
  let c4 := {| conf_compiler_executables := conf_compiler_executables c3;
               conf_cflags := conf_cflags c3; conf_cxxflags := conf_cxxflags c3;
               conf_linkflags := Some ["-Wl,--gc-sections"; "-Wl,--cref"] |} in
  set_conf s1 c4.

(* ------------------------------------------------------------------ *)
(** ** [conan.tools.files.copy] *)

Definition ascii_lower (c : ascii) : ascii :=
  let n := nat_of_ascii c in
  if ((65 <=? n)%nat && (n <=? 90)%nat) then ascii_of_nat (n + 32) else c.

Definition ascii_eqb (a b : ascii) : bool :=
  if ascii_dec a b then true else false.

(** [fnmatch] for patterns built from literal characters and [*]
    ([*] also matches the path separator). *)
Fixpoint fnmatch_chars (p s : list ascii) {struct p} : bool :=
  match p with
  | [] => match s with [] => true | _ => false end
  | c :: p' =>
      if ascii_dec c "*"%char then
        (fix star (s : list ascii) : bool :=
           fnmatch_chars p' s || match s with [] => false | _ :: s' => star s' end) s
      else match s with
           | [] => false
           | d :: s' => ascii_eqb c d && fnmatch_chars p' s'
           end
  end.

(** A path as its list of components below some root folder. *)
Definition path := list string.

Definition join_path (p : path) : string := String.concat "/" p.

(** [copy(..., ignore_case=True)]: file name and pattern compared in
    lower case. *)
Definition pattern_matches (pat : string) (rel : path) : bool :=
  fnmatch_chars (map ascii_lower (list_ascii_of_string pat))
                (map ascii_lower (list_ascii_of_string (join_path rel))).

Fixpoint strip_prefix (pre p : path) : option path :=
  match pre, p with
  | [], _ => Some p
  | a :: pre', b :: p' => if String.eqb a b then strip_prefix pre' p' else None
  | _ :: _, [] => None
  end.

(** A file tree: every file with its path and its bytes. *)
Definition file_tree := list (path * list Byte.byte).

(** One [copy(self, pattern, src=..., dst=..., keep_path=...)] call, with
    [src] below the folder the recipe reads from and [dst] below the
    package folder. *)
Record copy_rule := {
  cp_pattern : string;
  cp_src : path;
  cp_dst : path;
  cp_keep_path : bool;
}.

(** The writes one [copy] call performs: each file below [src] whose
    relative name matches lands at [dst/rel] ([keep_path]) or at
    [dst/basename]. *)
Definition rule_writes (t : file_tree) (r : copy_rule) : list (path * list Byte.byte) :=
  flat_map (fun '(p, c) =>
    match strip_prefix (cp_src r) p with
    | Some (rel_hd :: rel_tl) =>
        let rel := rel_hd :: rel_tl in
        if pattern_matches (cp_pattern r) rel then
          [(cp_dst r ++ (if cp_keep_path r then rel else [List.last rel rel_hd]), c)]
        else []
    | _ => []
    end) t.

Definition all_writes (rules : list copy_rule) (t : file_tree) : list (path * list Byte.byte) :=
  flat_map (rule_writes t) rules.

(* ------------------------------------------------------------------ *)
(** ** Packaging engine *)

#[global] Instance byte_eq_decision : EqDecision Byte.byte := Byte.byte_eq_dec.

Inductive package_error := CopyConflict (dst : path).

Abbreviation output_tree := (gmap path (list Byte.byte)).

(** Modelled from the spec (4.3, Packaging Engine; the copying is done by
    the build tool, not by the repository): the writes are applied in
    rule order; a write to a destination already holding different bytes
    fails with [CopyConflict]. *)
Fixpoint apply_writes (out : output_tree) (ws : list (path * list Byte.byte))
  : package_error + output_tree :=
  match ws with
  | [] => inr out
  | (d, c) :: ws' =>
      match out !! d with
      | Some c' => if decide (c' = c) then apply_writes out ws' else inl (CopyConflict d)
      | None => apply_writes (<[d := c]> out) ws'
      end
  end.

(** [package] into an existing output folder, and into a fresh one. *)
Definition package_into (out : output_tree) (rules : list copy_rule) (t : file_tree)
  : package_error + output_tree :=
  apply_writes out (all_writes rules t).

Definition package_step (rules : list copy_rule) (t : file_tree)
  : package_error + output_tree :=
  package_into ∅ rules t.

(* ------------------------------------------------------------------ *)
(** ** The [package] methods *)

Definition keep (pat : string) (src dst : path) : copy_rule :=
  {| cp_pattern := pat; cp_src := src; cp_dst := dst; cp_keep_path := true |}.

(** [CmsisHeaderOnly.package]. *)
Definition cmsis_package : list copy_rule :=
  [keep "*.h" ["Include"] ["include"]].

(** [FreeRTOSConan.package]: headers of four subfolders, then sources of
    five. *)
Definition freertos_package : list copy_rule :=
  map (fun sub => keep "*.h" sub sub)
      [["include"]; ["CMSIS_RTOS"]; ["CMSIS_RTOS_V2"]; ["portable"; "GCC"]]
  ++ map (fun sub => keep "*.c" sub sub)
      [["source"]; ["portable"; "GCC"]; ["portable"; "MemMang"];
       ["CMSIS_RTOS"]; ["CMSIS_RTOS_V2"]].

(** [STM32HAL.package] of st67w6x_network_driver. *)
Definition st67w6x_package : list copy_rule :=
  [keep "*" ["Api"] ["Api"]; keep "*" ["Core"] ["Core"];
   keep "*" ["Driver"; "W61_at"] ["Driver"; "W61_at"];
   keep "*" ["Driver"; "W61_bus"] ["Driver"; "W61_bus"]].

(** [STM32HAL.package] of stm32g4_hal_driver. *)
Definition stm32g4_package : list copy_rule :=
  [keep "*" ["Src"] ["src"];
   keep "*.h" ["Inc"] ["include"];
   keep "*.h" ["Inc"; "Legacy"] ["include"; "Legacy"]].

(** [ArmGnuToolchain.package]: everything of the build folder. *)
Definition arm_package : list copy_rule :=
  [keep "*" [] []].

(* ------------------------------------------------------------------ *)
(** ** Requirements and recipes *)

Fixpoint split_slash (l : list ascii) : list ascii * option (list ascii) :=
  match l with
  | [] => ([], None)
  | c :: l' =>
      if ascii_dec c "/"%char then ([], Some l')
      else let '(a, b) := split_slash l' in (c :: a, b)
  end.

(** A requirement reference ["name/version"]: name and version pin. *)
Definition parse_ref (s : string) : string * option string :=
  let '(a, b) := split_slash (list_ascii_of_string s) in
  (string_of_list_ascii a, option_map string_of_list_ascii b).

(** [STM32HAL.requirements] of stm32g4_hal_driver:
    [self.requires("cmsis/1.0.0")]; the other recipes declare none. *)
Definition stm32g4_requirements : list (string * option string) :=
  [parse_ref "cmsis/1.0.0"].

Record recipe := {
  r_name : string;
  r_version : string;
  r_package_type : string;
  r_requires : list (string * option string);
  r_package : list copy_rule;
  r_package_info : info_state -> info_state;
}.

Definition cmsis_recipe (v : string) : recipe :=
  {| r_name := "cmsis"; r_version := v; r_package_type := "header-library";
     r_requires := []; r_package := cmsis_package;
     r_package_info := cmsis_package_info |}.

Definition freertos_recipe (v : string) : recipe :=
  {| r_name := "freertos"; r_version := v; r_package_type := "header-library";
     r_requires := []; r_package := freertos_package;
     r_package_info := freertos_package_info |}.

Definition st67w6x_recipe (v : string) : recipe :=
  {| r_name := "st67w6x_network_driver"; r_version := v;
     r_package_type := "header-library"; r_requires := [];
     r_package := st67w6x_package; r_package_info := st67w6x_package_info |}.

Definition stm32g4_recipe (v : string) : recipe :=
  {| r_name := "stm32g4_hal_driver"; r_version := v;
     r_package_type := "header-library"; r_requires := stm32g4_requirements;
     r_package := stm32g4_package; r_package_info := stm32g4_package_info |}.

Definition arm_recipe (v : string) : recipe :=
  {| r_name := "arm-none-eabi-gcc"; r_version := v; r_package_type := "application";
     r_requires := []; r_package := arm_package;
     r_package_info := arm_package_info |}.

(** The repository's recipe set, each with the version its
    [version.txt] yields. *)
Definition repo_recipes (vc vf vn vh va : string) : list recipe :=
  [cmsis_recipe vc; freertos_recipe vf; st67w6x_recipe vn;
   stm32g4_recipe vh; arm_recipe va].

(* ------------------------------------------------------------------ *)
(** ** Dependency graph resolver *)

Definition find_recipe (rs : list recipe) (n : string) : option recipe :=
  find (fun r => String.eqb (r_name r) n) rs.

(** The names a recipe requires (outgoing edges dependent -> dependency). *)
Definition deps_of (rs : list recipe) (n : string) : list string :=
  match find_recipe rs n with
  | Some r => map fst (r_requires r)
  | None => []
  end.

Definition satisfies (c : option string) (v : string) : bool :=
  match c with None => true | Some pin => String.eqb pin v end.

Definition mem (x : string) (l : list string) : bool :=
  existsb (String.eqb x) l.

(** A requirement resolves: exactly one loaded recipe of that name, and
    its version satisfies the constraint. *)
Definition requirement_ok (rs : list recipe) (req : string * option string) : bool :=
  let '(d, c) := req in
  Nat.eqb (length (List.filter (fun r => String.eqb (r_name r) d) rs)) 1 &&
  match find_recipe rs d with
  | Some r => satisfies c (r_version r)
  | None => false
  end.

Definition unresolved (rs : list recipe) : list (string * option string) :=
  List.filter (fun req => negb (requirement_ok rs req)) (flat_map r_requires rs).

(** The prefix of the DFS stack (most recent first) down to [n], turned
    into the cycle path [n -> ... -> n] in requirement direction. *)
Fixpoint upto (n : string) (stack : list string) : list string :=
  match stack with
  | [] => []
  | x :: s => if String.eqb x n then [x] else x :: upto n s
  end.

Definition cycle_path (n : string) (stack : list string) : list string :=
  rev (upto n stack) ++ [n].

(** Visiting the dependencies [ds] of a node one after the other. *)
Fixpoint visit_list (vis : list string -> string -> list string + list string)
  (ds done : list string) : list string + list string :=
  match ds with
  | [] => inr done
  | d :: ds' =>
      match vis done d with
      | inl c => inl c
      | inr done' => visit_list vis ds' done'
      end
  end.

(** Depth-first traversal with the recursion stack as cycle marker:
    [inl] a cycle path, [inr] the finished nodes. *)
Fixpoint visit (rs : list recipe) (fuel : nat) (stack done : list string) (n : string)
  : list string + list string :=
  match fuel with
  | 0 => inr done
  | S f =>
      if mem n stack then inl (cycle_path n stack)
      else if mem n done then inr done
      else
        match visit_list (fun done' d => visit rs f (n :: stack) done' d)
                         (deps_of rs n) done with
        | inl c => inl c
        | inr done' => inr (n :: done')
        end
  end.

Fixpoint visit_all (rs : list recipe) (roots done : list string) : list string + list string :=
  match roots with
  | [] => inr done
  | n :: roots' =>
      match visit rs (S (length rs)) [] done n with
      | inl c => inl c
      | inr done' => visit_all rs roots' done'
      end
  end.

Definition find_cycle (rs : list recipe) : option (list string) :=
  match visit_all rs (map r_name rs) [] with
  | inl c => Some c
  | inr _ => None
  end.

(** Ascending order of recipe names. *)
Definition name_lt (a b : string) : bool :=
  match String_as_OT.compare a b with Lt => true | _ => false end.

Definition min_name (l : list string) : option string :=
  fold_left (fun acc x => match acc with
                          | None => Some x
                          | Some a => if name_lt x a then Some x else Some a
                          end) l None.

(** Number of not yet emitted dependencies of [n]. *)
Definition indeg (rs : list recipe) (remaining : list string) (n : string) : nat :=
  length (List.filter (fun d => mem d remaining) (deps_of rs n)).

(** Repeated removal of a zero-in-degree node, the least name first:
    [inr] the order, [inl] the nodes left when none is eligible. *)
Fixpoint kahn (rs : list recipe) (fuel : nat) (remaining emitted : list string)
  : list string + list string :=
  match remaining with
  | [] => inr emitted
  | _ :: _ =>
      match fuel with
      | 0 => inl remaining
      | S f =>
          match min_name (List.filter (fun n => Nat.eqb (indeg rs remaining n) 0) remaining) with
          | None => inl remaining
          | Some m => kahn rs f (remove string_dec m remaining) (emitted ++ [m])
          end
      end
  end.

Inductive resolve_error :=
  | UnresolvedDependency (name : string) (constraint : option string)
  | DependencyCycle (cycle : list string).

(** Modelled from the spec (4.4, Dependency Graph Resolver; resolution
    is done by the build tool, not by the repository): requirement
    validation, then DFS cycle detection, then the topological order. *)
Definition resolve (rs : list recipe) : resolve_error + list string :=
  match unresolved rs with
  | (d, c) :: _ => inl (UnresolvedDependency d c)
  | [] =>
      match find_cycle rs with
      | Some cyc => inl (DependencyCycle cyc)
      | None =>
          match kahn rs (length rs) (map r_name rs) [] with
          | inl rem => inl (DependencyCycle rem)
          | inr order => inr order
          end
      end
  end.

(* ------------------------------------------------------------------ *)
(** ** Artifact acquisition *)

Inductive acquire_error := ChecksumMismatch (expected actual : string).

(** Content-addressed artifact cache: downloaded bytes by (url, checksum). *)
Abbreviation artifact_cache := (gmap (string * string) (list Byte.byte)).

Section Acquire.
(** The digest of a byte string (sha256), the remote host (the bytes a
    download of a url yields) and the archive extraction with a number
    of leading path components removed. *)
Variable digest : list Byte.byte -> string.
Variable download : string -> list Byte.byte.
Variable extract : nat -> list Byte.byte -> file_tree.

(** Modelled from the spec (4.2, Artifact Acquirer; [get] belongs to
    the build tool): a cache hit is served without network access;
    otherwise the bytes are downloaded and checked, and only bytes
    whose digest is the expected checksum are cached and extracted.
    The last component counts the downloads performed. *)
Definition acquire (cache : artifact_cache) (url expected : string) (strip : nat)
  : (acquire_error + file_tree) * artifact_cache * nat :=
  match cache !! (url, expected) with
  | Some bytes => (inr (extract strip bytes), cache, 0%nat)
  | None =>
      let bytes := download url in
      let actual := digest bytes in
      if String.eqb actual expected
      then (inr (extract strip bytes), <[(url, expected) := bytes]> cache, 1%nat)
      else (inl (ChecksumMismatch expected actual), cache, 1%nat)
  end.

Definition arm_toolchain_url : string :=
  "https://developer.arm.com/-/media/Files/downloads/gnu/13.2.rel1/binrel/arm-gnu-toolchain-13.2.rel1-x86_64-arm-none-eabi.tar.xz".

Definition arm_toolchain_sha256 : string :=
  "6cd1bbc1d9ae57312bcd169ae283153a9572bd6a8e4eeae2fedfbc33b115fdbb".

(** [ArmGnuToolchain.build]: [get(url, sha256, strip_root=True)]. *)
Definition arm_build (cache : artifact_cache)
  : (acquire_error + file_tree) * artifact_cache * nat :=
  acquire cache arm_toolchain_url arm_toolchain_sha256 1.
End Acquire.

(* ------------------------------------------------------------------ *)
(** ** Build-environment composition *)

(** A directory of a package: the package's name (its package folder)
    and the directory relative to it. *)
Abbreviation pkg_path := (string * string)%type.

Record build_info := {
  bi_include_dirs : list pkg_path;
  bi_source_dirs : list pkg_path;
  bi_lib_dirs : list pkg_path;
  bi_compiler_executables : list (string * string);
  bi_cflags : list string;
  bi_cxxflags : list string;
  bi_linkflags : list string;
  bi_env : list (string * env_op * pkg_path);
}.

Definition empty_info : build_info :=
  {| bi_include_dirs := []; bi_source_dirs := []; bi_lib_dirs := [];
     bi_compiler_executables := []; bi_cflags := []; bi_cxxflags := [];
     bi_linkflags := []; bi_env := [] |}.

Definition opt_list {A} (o : option (list A)) : list A :=
  match o with Some l => l | None => [] end.

(** What a recipe exports: the result of its [package_info] on Conan's
    defaults, directories rooted at its own package folder. *)
Definition exported_info (r : recipe) : build_info :=
  let s := r_package_info r default_info_state in
  let n := r_name r in
  {| bi_include_dirs := map (pair n) (includedirs (st_cpp s));
     bi_source_dirs := map (pair n) (srcdirs (st_cpp s));
     bi_lib_dirs := map (pair n) (libdirs (st_cpp s));
     bi_compiler_executables := opt_list (conf_compiler_executables (st_conf s));
     bi_cflags := opt_list (conf_cflags (st_conf s));
     bi_cxxflags := opt_list (conf_cxxflags (st_conf s));
     bi_linkflags := opt_list (conf_linkflags (st_conf s));
     bi_env := map (fun '(v, op, p) => (v, op, (n, p))) (st_env s) |}.

(** Concatenation with de-duplication: the entries of [l] not yet
    present are appended, the first occurrence is kept. *)
Definition append_new {A} `{EqDecision A} (acc l : list A) : list A :=
  fold_left (fun acc x => if decide (x ∈ acc) then acc else acc ++ [x]) l acc.

Inductive compose_error :=
  | ConflictingDefinition (role old new : string)
  | MissingBuildInfo (name : string).

Fixpoint assoc (k : string) (l : list (string * string)) : option string :=
  match l with
  | [] => None
  | (k', v) :: l' => if String.eqb k' k then Some v else assoc k l'
  end.

(** First definition wins; a different later value for a role is an
    error, the same value a no-op. *)
Fixpoint merge_executables (acc new : list (string * string))
  : compose_error + list (string * string) :=
  match new with
  | [] => inr acc
  | (k, v) :: new' =>
      match assoc k acc with
      | None => merge_executables (acc ++ [(k, v)]) new'
      | Some v' => if String.eqb v' v then merge_executables acc new'
                   else inl (ConflictingDefinition k v' v)
      end
  end.

Definition merge_info (acc x : build_info) : compose_error + build_info :=
  match merge_executables (bi_compiler_executables acc) (bi_compiler_executables x) with
  | inl e => inl e
  | inr ex =>
      inr {| bi_include_dirs := append_new (bi_include_dirs acc) (bi_include_dirs x);
             bi_source_dirs := append_new (bi_source_dirs acc) (bi_source_dirs x);
             bi_lib_dirs := append_new (bi_lib_dirs acc) (bi_lib_dirs x);
             bi_compiler_executables := ex;
             bi_cflags := append_new (bi_cflags acc) (bi_cflags x);
             bi_cxxflags := append_new (bi_cxxflags acc) (bi_cxxflags x);
             bi_linkflags := append_new (bi_linkflags acc) (bi_linkflags x);
             bi_env := bi_env acc ++ bi_env x |}
  end.

Fixpoint merge_all (acc : build_info) (xs : list build_info) : compose_error + build_info :=
  match xs with
  | [] => inr acc
  | x :: xs' => match merge_info acc x with
                | inl e => inl e
                | inr acc' => merge_all acc' xs'
                end
  end.

Fixpoint lookup_info (n : string) (computed : list (string * build_info)) : option build_info :=
  match computed with
  | [] => None
  | (n', i) :: c => if String.eqb n' n then Some i else lookup_info n c
  end.

Fixpoint dep_infos (computed : list (string * build_info)) (ds : list string)
  : compose_error + list build_info :=
  match ds with
  | [] => inr []
  | d :: ds' =>
      match lookup_info d computed with
      | None => inl (MissingBuildInfo d)
      | Some i => match dep_infos computed ds' with
                  | inl e => inl e
                  | inr is => inr (i :: is)
                  end
      end
  end.

(** Modelled from the spec (4.5, Build-Environment Composer; the
    propagation is done by the build tool): a node's build-info is the
    merge of its direct dependencies' computed build-info, in declared
    order, followed by its own exported build-info. *)
Definition compose_node (computed : list (string * build_info)) (r : recipe)
  : compose_error + build_info :=
  match dep_infos computed (map fst (r_requires r)) with
  | inl e => inl e
  | inr is => merge_all empty_info (is ++ [exported_info r])
  end.

(** The walk over the build plan, in plan order. *)
Fixpoint compose_from (rs : list recipe) (computed : list (string * build_info))
  (plan : list string) : compose_error + list (string * build_info) :=
  match plan with
  | [] => inr computed
  | n :: plan' =>
      match find_recipe rs n with
      | None => inl (MissingBuildInfo n)
      | Some r => match compose_node computed r with
                  | inl e => inl e
                  | inr i => compose_from rs (computed ++ [(n, i)]) plan'
                  end
      end
  end.

Definition compose (rs : list recipe) (plan : list string)
  : compose_error + list (string * build_info) :=
  compose_from rs [] plan.

(* ------------------------------------------------------------------ *)
(** ** [exports_sources] *)

(** The files of the recipe folder Conan exports as the recipe's sources:
    each pattern of [exports_sources] is a [copy] from the recipe folder
    into the export folder, keeping paths, so a file is exported when its
    relative path matches one of them. *)
Definition exported_files (pats : list string) (t : file_tree) : file_tree :=
  List.filter (fun '(p, _) => existsb (fun pat => pattern_matches pat p) pats) t.

(** [CmsisHeaderOnly.exports_sources]. *)
Definition cmsis_exports_sources : list string := ["Include/*"].

(** [FreeRTOSConan.exports_sources]. *)
Definition freertos_exports_sources : list string := ["*"].

(** [exports_sources] of st67w6x_network_driver. *)
Definition st67w6x_exports_sources : list string :=
  ["Api/**"; "Core/**"; "Driver/W61_at/**"; "Driver/W61_bus/**"; "version.txt"].

(** [exports_sources] of stm32g4_hal_driver. *)
Definition stm32g4_exports_sources : list string :=
  ["Src/**"; "Inc/**"; "Inc/Legacy/**"; "version.txt"].

(** A [cpp_info] directory ([os.path.join(package_folder, d)]) as the
    path of its components below the package folder. *)
Fixpoint split_on_slash (l : list ascii) (cur : list ascii) : list string :=
  match l with
  | [] => [string_of_list_ascii (rev cur)]
  | c :: l' =>
      if ascii_dec c "/"%char then string_of_list_ascii (rev cur) :: split_on_slash l' []
      else split_on_slash l' (c :: cur)
  end.

Definition dir_components (d : string) : path := split_on_slash (list_ascii_of_string d) [].

(** [p] lies strictly below the package directory [d]. *)
Definition below (d : string) (p : path) : Prop :=
  exists rel, rel <> [] /\ p = dir_components d ++ rel.

(** The characters of a pattern without wildcard. *)
Definition no_star (l : list ascii) : bool :=
  forallb (fun c => negb (ascii_eqb c "*"%char)) l.

(** The include and source directories a recipe's [package_info]
    exports, on Conan's defaults. *)
Definition exported_dirs (r : recipe) : list string :=
  let s := r_package_info r default_info_state in
  includedirs (st_cpp s) ++ srcdirs (st_cpp s).

(* ------------------------------------------------------------------ *)
(** ** Vocabulary of the statements, sample inputs *)

(** [a] requires [b]: the edge from dependent [a] to dependency [b]. *)
Definition requires_edge (rs : list recipe) (a b : string) : Prop :=
  exists r, In r rs /\ r_name r = a /\ In b (map fst (r_requires r)).

Definition acyclic (rs : list recipe) : Prop :=
  forall z, ~ clos_trans string (requires_edge rs) z z.

(** Every requirement names a loaded recipe whose version satisfies
    the declared constraint. *)
Definition valid_requirements (rs : list recipe) : Prop :=
  forall r d c, In r rs -> In (d, c) (r_requires r) ->
  exists r', In r' rs /\ r_name r' = d /\ satisfies c (r_version r') = true.

(** [d] occurs strictly earlier than [n] in [order]. *)
Definition before (order : list string) (d n : string) : Prop :=
  exists l1 l2, order = l1 ++ n :: l2 /\ In d l1.

(** Every node's requirements are emitted before it. *)
Definition topo (rs : list recipe) (order : list string) : Prop :=
  forall l1 m l2, order = l1 ++ m :: l2 -> forall d, In d (deps_of rs m) -> In d l1.

Definition name_le (a b : string) : Prop := name_lt b a = false.

Fixpoint index_of (x : string) (l : list string) : nat :=
  match l with
  | [] => 0
  | y :: l' => if String.eqb y x then 0 else S (index_of x l')
  end.

(** No whitespace at either end. *)
Definition trimmed (s : pystr) : Prop :=
  forall c, head s = Some c \/ last s = Some c -> py_isspace c = false.

Definition newline : string := String "010"%char EmptyString.

(** The UTF-8 bytes of U+00A0, no-break space. *)
Definition nbsp : string := String "194"%char (String "160"%char EmptyString).

(** The code points of an ASCII text. *)
Definition ascii_text (s : string) : pystr := map N_of_ascii (list_ascii_of_string s).

(** The folder of a recipe whose [version.txt] holds [content]. *)
Definition version_folder (content : string) : folder :=
  fun f => if String.eqb f "version.txt" then Some content else None.

Definition stm32g4_src_of (d : path) : path :=
  match d with
  | "src" :: rel => "Src" :: rel
  | "include" :: rel => "Inc" :: rel
  | _ => []
  end.

Definition cmsis_src_of (d : path) : path :=
  match d with
  | "include" :: rel => "Include" :: rel
  | _ => []
  end.

Definition hal_sample_tree : file_tree :=
  [(["Src"; "stm32g4xx_hal.c"], [Byte.x01]);
   (["Inc"; "stm32g4xx_hal.h"], [Byte.x02]);
   (["Inc"; "Legacy"; "stm32_hal_legacy.h"], [Byte.x03])].

(** Every cached entry holds bytes whose digest is its checksum key. *)
Definition cache_sound (digest : list Byte.byte -> string) (cache : artifact_cache) : Prop :=
  forall u s b, cache !! (u, s) = Some b -> digest b = s.

Definition sample_digest (b : list Byte.byte) : string :=
  if Nat.eqb (length b) 0 then "empty" else "nonempty".

Definition hal_includes_ok (n : string) (i : build_info) : Prop :=
  (n = "cmsis" -> bi_include_dirs i = [("cmsis", "include")]) /\
  (n = "stm32g4_hal_driver" ->
     bi_include_dirs i = [("cmsis", "include"); ("stm32g4_hal_driver", "include");
                          ("stm32g4_hal_driver", "include/Legacy")]).

(** A consumer of the toolchain that sets the C compiler to another
    executable. *)
Definition sample_app_recipe : recipe :=
  {| r_name := "app"; r_version := "1.0"; r_package_type := "application";
     r_requires := [("arm-none-eabi-gcc", None)]; r_package := [];
     r_package_info := fun s =>
       set_conf s {| conf_compiler_executables := Some [("c", "clang")];
                     conf_cflags := None; conf_cxxflags := None; conf_linkflags := None |} |}.

Definition sample_computed : list (string * build_info) :=
  [("arm-none-eabi-gcc", exported_info (arm_recipe "13.2.1"))].

(* ================================================================== *)
(** * Proofs *)

(* ------------------------------------------------------------------ *)
(** ** Graph vocabulary *)






Lemma mem_In x l : mem x l = true <-> In x l.
Proof.
  unfold mem. rewrite existsb_exists. split.
  - intros [y [Hy E]]. apply String.eqb_eq in E. subst. exact Hy.
  - intros H. exists x. split; [exact H | apply String.eqb_refl].
Qed.

Lemma find_recipe_some rs n r :
  find_recipe rs n = Some r -> In r rs /\ r_name r = n.
Proof.
  unfold find_recipe. intros H. apply find_some in H as [H1 H2].
  apply String.eqb_eq in H2. auto.
Qed.

Lemma find_recipe_in rs r :
  NoDup (map r_name rs) -> In r rs -> find_recipe rs (r_name r) = Some r.
Proof.
  induction rs as [|a rs IH]; simpl; [tauto|].
  intros Hnd Hin. inversion Hnd as [|? ? Hnot Hnd']; subst.
  unfold find_recipe in *; simpl.
  destruct Hin as [->|Hin]; [rewrite String.eqb_refl; reflexivity|].
  destruct (String.eqb (r_name a) (r_name r)) eqn:E.
  - apply String.eqb_eq in E. exfalso. apply Hnot. rewrite E.
    apply list_elem_of_In, in_map. exact Hin.
  - apply IH; assumption.
Qed.

Lemma deps_edge rs a b : In b (deps_of rs a) -> requires_edge rs a b.
Proof.
  unfold deps_of. destruct (find_recipe rs a) as [r|] eqn:F; [|simpl; tauto].
  intros H. apply find_recipe_some in F as [F1 F2]. exists r. auto.
Qed.

Lemma edge_deps rs a b :
  NoDup (map r_name rs) -> requires_edge rs a b -> In b (deps_of rs a).
Proof.
  intros Hnd [r [Hr [<- Hb]]]. unfold deps_of.
  rewrite (find_recipe_in rs r Hnd Hr). exact Hb.
Qed.

Lemma unresolved_nil_deps rs n d :
  unresolved rs = [] -> In d (deps_of rs n) -> In d (map r_name rs).
Proof.
  unfold deps_of. destruct (find_recipe rs n) as [r|] eqn:F; [|simpl; tauto].
  intros Hu Hd. apply find_recipe_some in F as [Fin _].
  apply in_map_iff in Hd as [[d' c] [Hd' Hdc]]. simpl in Hd'. subst d'.
  assert (Hok : requirement_ok rs (d, c) = true).
  { destruct (requirement_ok rs (d, c)) eqn:E; [reflexivity|].
    assert (In (d, c) (unresolved rs)) as Hin.
    { unfold unresolved. apply filter_In. split.
      - apply in_flat_map. exists r. auto.
      - rewrite E. reflexivity. }
    rewrite Hu in Hin. destruct Hin. }
  unfold requirement_ok in Hok. apply andb_prop in Hok as [_ Hok].
  destruct (find_recipe rs d) as [r'|] eqn:F'; [|discriminate].
  apply find_recipe_some in F' as [F1 F2]. subst d. apply in_map. exact F1.
Qed.

Lemma filter_name_unique rs r :
  NoDup (map r_name rs) -> In r rs ->
  length (List.filter (fun r' => String.eqb (r_name r') (r_name r)) rs) = 1%nat.
Proof.
  induction rs as [|a rs IH]; simpl; [tauto|].
  intros Hnd Hin. inversion Hnd as [|? ? Hnot Hnd']; subst.
  destruct Hin as [->|Hin].
  - rewrite String.eqb_refl. simpl. f_equal.
    assert (Hz : forall l, ~ In (r_name r) (map r_name l) ->
              List.filter (fun r' => String.eqb (r_name r') (r_name r)) l = []).
    { induction l as [|b l IHl]; simpl; [reflexivity|].
      intros Hn. destruct (String.eqb (r_name b) (r_name r)) eqn:E.
      - apply String.eqb_eq in E. exfalso. apply Hn. left. exact E.
      - apply IHl. tauto. }
    rewrite Hz; [reflexivity|]. rewrite <- list_elem_of_In. exact Hnot.
  - destruct (String.eqb (r_name a) (r_name r)) eqn:E.
    + apply String.eqb_eq in E. exfalso. apply Hnot. rewrite E.
      apply list_elem_of_In, in_map. exact Hin.
    + apply IH; assumption.
Qed.

Lemma valid_unresolved rs :
  NoDup (map r_name rs) -> valid_requirements rs -> unresolved rs = [].
Proof.
  intros Hnd Hv. unfold unresolved.
  destruct (List.filter _ _) as [|[d c] l] eqn:E; [reflexivity|].
  assert (Hin : In (d, c) (List.filter (fun req => negb (requirement_ok rs req))
                                  (flat_map r_requires rs))) by (rewrite E; left; reflexivity).
  apply filter_In in Hin as [Hin Hbad].
  apply in_flat_map in Hin as [r [Hr Hdc]].
  destruct (Hv r d c Hr Hdc) as [r' [Hr' [<- Hs]]].
  unfold requirement_ok in Hbad.
  rewrite (filter_name_unique rs r' Hnd Hr'), (find_recipe_in rs r' Hnd Hr'), Hs in Hbad.
  discriminate.
Qed.

(* ------------------------------------------------------------------ *)
(** ** A finite set where every node has a successor contains a cycle *)

Lemma stuck_set_cycle {A : Type} (dec : forall x y : A, {x = y} + {x <> y})
  (R : A -> A -> Prop) :
  forall l, l <> [] ->
  (forall x, In x l -> exists y, In y l /\ clos_trans A R x y) ->
  exists z, clos_trans A R z z.
Proof.
  intros l. remember (length l) as n eqn:Hn. revert l Hn.
  induction n as [n IH] using lt_wf_ind. intros l Hn Hne H.
  destruct l as [|x l0]; [contradiction|].
  destruct (H x (or_introl eq_refl)) as [c [Hc Hxc]].
  destruct (dec c x) as [->|Hcx]; [exists x; exact Hxc|].
  set (l' := remove dec x (x :: l0)).
  assert (Hc' : In c l') by (apply in_in_remove; assumption).
  apply (IH (length l')) with (l := l').
  - subst n. apply remove_length_lt. left. reflexivity.
  - reflexivity.
  - intros E. rewrite E in Hc'. destruct Hc'.
  - intros a Ha. apply in_remove in Ha as [Ha Hax].
    destruct (H a Ha) as [b [Hb Hab]].
    destruct (dec b x) as [->|Hbx].
    + exists c. split; [exact Hc'|]. eapply t_trans; eassumption.
    + exists b. split; [apply in_in_remove; assumption|exact Hab].
Qed.

(* ------------------------------------------------------------------ *)
(** ** Soundness of the DFS cycle check *)

Section DfsSound.
Variable rs : list recipe.
Local Abbreviation E := (requires_edge rs).

Lemma visit_sound f : forall stack done n c,
  (forall x, In x stack -> clos_trans string E x n) ->
  visit rs f stack done n = inl c ->
  exists z, clos_trans string E z z.
Proof.
  induction f as [|f IH]; intros stack done n c Hst Hv; simpl in Hv; [discriminate|].
  destruct (mem n stack) eqn:Hm.
  - apply mem_In in Hm. exists n. apply Hst. exact Hm.
  - destruct (mem n done); [discriminate|].
    assert (Hl : forall ds done0 c0, (forall d, In d ds -> E n d) ->
              visit_list (fun done' d => visit rs f (n :: stack) done' d) ds done0 = inl c0 ->
              exists z, clos_trans string E z z).
    { induction ds as [|d ds IHds]; intros done0 c0 Hds Hvl; simpl in Hvl; [discriminate|].
      destruct (visit rs f (n :: stack) done0 d) as [c1|done1] eqn:Hvd.
      - apply (IH (n :: stack) done0 d c1); [|exact Hvd].
        intros x [<-|Hx].
        + apply t_step. apply Hds. left. reflexivity.
        + eapply t_trans; [apply Hst; exact Hx|]. apply t_step. apply Hds. left. reflexivity.
      - apply (IHds done1 c0); [intros d' Hd'; apply Hds; right; exact Hd'|exact Hvl]. }
    destruct (visit_list _ (deps_of rs n) done) as [c1|done1] eqn:Hvl; [|discriminate].
    apply (Hl (deps_of rs n) done c1); [|exact Hvl].
    intros d Hd. apply deps_edge. exact Hd.
Qed.

Lemma visit_all_sound : forall roots done c,
  visit_all rs roots done = inl c -> exists z, clos_trans string E z z.
Proof.
  induction roots as [|n roots IH]; intros done c Hv; cbn [visit_all] in Hv; [discriminate|].
  destruct (visit rs (S (length rs)) [] done n) as [c1|done1] eqn:Hvn.
  - apply (visit_sound (S (length rs)) [] done n c1); [intros x []|exact Hvn].
  - eapply IH. exact Hv.
Qed.

Lemma find_cycle_sound c :
  find_cycle rs = Some c -> exists z, clos_trans string E z z.
Proof.
  unfold find_cycle. destruct (visit_all rs (map r_name rs) []) as [c1|] eqn:Hv;
    [|discriminate].
  intros _. eapply visit_all_sound. exact Hv.
Qed.
End DfsSound.

(* ------------------------------------------------------------------ *)
(** ** The name order and [min_name] *)


Lemma name_lt_spec a b : name_lt a b = true <-> String_as_OT.lt a b.
Proof.
  unfold name_lt, String_as_OT.lt. destruct (String_as_OT.compare a b); split;
    congruence.
Qed.

Lemma name_lt_irrefl a : name_lt a a = false.
Proof.
  destruct (name_lt a a) eqn:E; [|reflexivity].
  apply name_lt_spec in E. exfalso. exact (StrictOrder_Irreflexive a E).
Qed.

Lemma name_not_lt a b : name_lt a b = false -> a = b \/ String_as_OT.lt b a.
Proof.
  intros H. destruct (String_as_OT.compare_spec a b) as [E|L|G]; auto.
  apply name_lt_spec in L. congruence.
Qed.

Lemma name_le_trans a b c : name_le a b -> name_le b c -> name_le a c.
Proof.
  unfold name_le. intros Hab Hbc.
  destruct (name_lt c a) eqn:E; [|reflexivity]. exfalso.
  apply name_lt_spec in E.
  destruct (name_not_lt _ _ Hab) as [<-|L].
  - apply name_lt_spec in E. congruence.
  - assert (Hcb : String_as_OT.lt c b) by (etransitivity; eassumption).
    apply name_lt_spec in Hcb. congruence.
Qed.

Lemma name_le_antisym a b : name_le a b -> name_le b a -> a = b.
Proof.
  unfold name_le. intros H1 H2.
  destruct (name_not_lt _ _ H1) as [E|L]; [symmetry; exact E|].
  apply name_lt_spec in L. congruence.
Qed.

Lemma name_lt_le a b : name_lt a b = true -> name_le a b.
Proof.
  unfold name_le. intros H. destruct (name_lt b a) eqn:E; [|reflexivity].
  apply name_lt_spec in H, E. exfalso.
  apply (StrictOrder_Irreflexive a). etransitivity; eassumption.
Qed.

Lemma min_name_fold : forall l acc m,
  fold_left (fun acc x => match acc with
                          | None => Some x
                          | Some a => if name_lt x a then Some x else Some a
                          end) l acc = Some m ->
  (acc = Some m \/ In m l) /\
  (forall a, acc = Some a -> name_le m a) /\
  (forall x, In x l -> name_le m x).
Proof.
  induction l as [|x l IH]; intros acc m H; simpl in H.
  - subst. split; [left; reflexivity|]. split; [|intros _ []].
    intros a Ha. injection Ha as ->. unfold name_le. apply name_lt_irrefl.
  - destruct acc as [a|].
    + destruct (name_lt x a) eqn:Hxa.
      * destruct (IH _ _ H) as [H1 [H2 H3]].
        assert (Hmx : name_le m x) by (apply H2; reflexivity).
        split; [destruct H1 as [H1|H1]; [injection H1 as ->; right; left; reflexivity|right; right; exact H1]|].
        split.
        -- intros a' Ha'. injection Ha' as <-. eapply name_le_trans; [exact Hmx|].
           apply name_lt_le. exact Hxa.
        -- intros y [<-|Hy]; [exact Hmx|apply H3; exact Hy].
      * destruct (IH _ _ H) as [H1 [H2 H3]].
        assert (Hma : name_le m a) by (apply H2; reflexivity).
        split; [destruct H1 as [H1|H1]; [left; exact H1|right; right; exact H1]|].
        split; [intros a' Ha'; injection Ha' as <-; exact Hma|].
        intros y [<-|Hy]; [|apply H3; exact Hy].
        eapply name_le_trans; [exact Hma|]. exact Hxa.
    + destruct (IH _ _ H) as [H1 [H2 H3]].
      assert (Hmx : name_le m x) by (apply H2; reflexivity).
      split; [destruct H1 as [H1|H1]; [injection H1 as ->; right; left; reflexivity|right; right; exact H1]|].
      split; [intros a' Ha'; discriminate|].
      intros y [<-|Hy]; [exact Hmx|apply H3; exact Hy].
Qed.

Lemma min_name_some l m :
  min_name l = Some m -> In m l /\ forall x, In x l -> name_le m x.
Proof.
  unfold min_name. intros H. destruct (min_name_fold l None m H) as [[H1|H1] [_ H3]];
    [discriminate|auto].
Qed.

Lemma min_name_fold_some : forall l a,
  exists m, fold_left (fun acc x => match acc with
                          | None => Some x
                          | Some a => if name_lt x a then Some x else Some a
                          end) l (Some a) = Some m.
Proof.
  induction l as [|x l IH]; intros a; simpl; [eauto|].
  destruct (name_lt x a); apply IH.
Qed.

Lemma min_name_none l : min_name l = None -> l = [].
Proof.
  unfold min_name. destruct l as [|x l]; [reflexivity|]. simpl.
  destruct (min_name_fold_some l x) as [m Hm]. rewrite Hm. discriminate.
Qed.

(* ------------------------------------------------------------------ *)
(** ** Kahn's algorithm: soundness and progress *)

Lemma remove_perm (l : list string) m :
  NoDup l -> In m l -> l ≡ₚ m :: remove string_dec m l.
Proof.
  induction l as [|x l IH]; simpl; [tauto|].
  intros Hnd Hin. apply NoDup_cons in Hnd as [Hx Hnd].
  destruct (string_dec m x) as [<-|Hmx].
  - rewrite notin_remove; [reflexivity|]. rewrite <- list_elem_of_In. exact Hx.
  - destruct Hin as [->|Hin]; [congruence|].
    rewrite (IH Hnd Hin) at 1. apply perm_swap.
Qed.

Lemma app_snoc_split (l1 l2 em : list string) m' m :
  l1 ++ m' :: l2 = em ++ [m] ->
  (l2 = [] /\ l1 = em /\ m' = m) \/
  (exists l2', l2 = l2' ++ [m] /\ em = l1 ++ m' :: l2').
Proof.
  destruct l2 as [|z l2] using rev_ind; intros H.
  - left. apply app_inj_tail in H as [-> ->]. auto.
  - right. clear IHl2. rewrite app_comm_cons, app_assoc in H.
    apply app_inj_tail in H as [<- ->]. eauto.
Qed.

Lemma indeg_zero rs rem n d :
  indeg rs rem n = 0%nat -> In d (deps_of rs n) -> ~ In d rem.
Proof.
  unfold indeg. intros H Hd Hr.
  destruct (List.filter (fun d => mem d rem) (deps_of rs n)) as [|y l] eqn:E;
    [|discriminate].
  assert (Hin : In d (List.filter (fun d => mem d rem) (deps_of rs n))).
  { apply filter_In. split; [exact Hd|]. apply mem_In. exact Hr. }
  rewrite E in Hin. destruct Hin.
Qed.

Section KahnProps.
Variable rs : list recipe.
Hypothesis Hnd : NoDup (map r_name rs).
Hypothesis Hu : unresolved rs = [].
Local Abbreviation names := (map r_name rs).

Lemma kahn_step_perm em rem m :
  (em ++ rem) ≡ₚ names -> In m rem ->
  ((em ++ [m]) ++ remove string_dec m rem) ≡ₚ names.
Proof.
  intros Hp Hm. rewrite <- app_assoc. simpl. rewrite <- Hp.
  apply Permutation_app_head. symmetry. apply remove_perm; [|exact Hm].
  assert (Hnd' : NoDup (em ++ rem)) by (rewrite Hp; exact Hnd).
  apply NoDup_app in Hnd' as [_ [_ Hr]]. exact Hr.
Qed.

Lemma kahn_sound f : forall rem em o,
  (em ++ rem) ≡ₚ names -> topo rs em ->
  kahn rs f rem em = inr o -> o ≡ₚ names /\ topo rs o.
Proof.
  induction f as [|f IH]; intros rem em o Hp Ht Hk;
    (destruct rem as [|x rem']; cbn [kahn] in Hk;
     [injection Hk as <-; rewrite app_nil_r in Hp; auto|]).
  - discriminate.
  - destruct (min_name _) as [m|] eqn:Hmin; [|discriminate].
    apply min_name_some in Hmin as [Hm _]. apply filter_In in Hm as [Hm Hz].
    apply Nat.eqb_eq in Hz.
    apply (IH _ _ o (kahn_step_perm _ _ _ Hp Hm)); [|exact Hk].
    intros l1 m' l2 Heq d Hd.
    destruct (app_snoc_split _ _ _ _ _ (eq_sym Heq)) as [[-> [-> ->]]|[l2' [-> Hem]]].
    + assert (Hdn : In d names) by (eapply unresolved_nil_deps; eassumption).
      rewrite <- Hp in Hdn. apply in_app_or in Hdn as [Hdn|Hdn]; [exact Hdn|].
      exfalso. eapply indeg_zero; eassumption.
    + eapply Ht; eassumption.
Qed.

Lemma kahn_progress (Hac : acyclic rs) f : forall rem em,
  (length rem <= f)%nat -> (em ++ rem) ≡ₚ names ->
  exists o, kahn rs f rem em = inr o.
Proof.
  induction f as [|f IH]; intros rem em Hlen Hp;
    (destruct rem as [|x rem']; [simpl; eauto|]).
  - simpl in Hlen. lia.
  - remember (x :: rem') as rem eqn:Hrem. cbn [kahn]. rewrite Hrem. rewrite <- Hrem.
    destruct (min_name _) as [m|] eqn:Hmin.
    + apply min_name_some in Hmin as [Hm _]. apply filter_In in Hm as [Hm _].
      apply IH; [|apply kahn_step_perm; assumption].
      pose proof (remove_length_lt string_dec rem m Hm). lia.
    + apply min_name_none in Hmin. exfalso.
      destruct (stuck_set_cycle string_dec (requires_edge rs) rem) as [z Hz].
      * rewrite Hrem. discriminate.
      * intros y Hy.
        destruct (indeg rs rem y) as [|k] eqn:Hi.
        -- assert (Hf : In y (List.filter (fun n => Nat.eqb (indeg rs rem n) 0) rem))
             by (apply filter_In; rewrite Hi; auto).
           rewrite Hmin in Hf. destruct Hf.
        -- unfold indeg in Hi.
           destruct (List.filter (fun d => mem d rem) (deps_of rs y)) as [|d l] eqn:E;
             [discriminate|].
           assert (Hd : In d (List.filter (fun d => mem d rem) (deps_of rs y)))
             by (rewrite E; left; reflexivity).
           apply filter_In in Hd as [Hd Hdr]. apply mem_In in Hdr.
           exists d. split; [exact Hdr|]. apply t_step. apply deps_edge. exact Hd.
      * exact (Hac z Hz).
Qed.

Lemma topo_before o r d :
  o ≡ₚ names -> topo rs o -> In r rs -> In d (map fst (r_requires r)) ->
  before o d (r_name r).
Proof.
  intros Hp Ht Hr Hd.
  assert (Hin : In (r_name r) o) by (rewrite Hp; apply in_map; exact Hr).
  apply in_split in Hin as [l1 [l2 Heq]]. exists l1, l2. split; [exact Heq|].
  apply (Ht l1 (r_name r) l2 Heq). unfold deps_of.
  rewrite (find_recipe_in rs r Hnd Hr). exact Hd.
Qed.
End KahnProps.

Lemma resolve_sound rs o :
  NoDup (map r_name rs) -> resolve rs = inr o ->
  unresolved rs = [] /\ o ≡ₚ map r_name rs /\ topo rs o.
Proof.
  intros Hnd. unfold resolve.
  destruct (unresolved rs) as [|[d c] l] eqn:Hu; [|discriminate].
  destruct (find_cycle rs); [discriminate|].
  destruct (kahn rs (length rs) (map r_name rs) []) as [|o'] eqn:Hk; [discriminate|].
  intros H. injection H as <-. split; [reflexivity|].
  apply (kahn_sound rs Hnd Hu (length rs) (map r_name rs) []); [reflexivity| |exact Hk].
  intros l1 m l2 Heq. destruct l1; discriminate.
Qed.

Lemma resolve_progress rs :
  NoDup (map r_name rs) -> unresolved rs = [] -> acyclic rs ->
  exists o, resolve rs = inr o.
Proof.
  intros Hnd Hu Hac. unfold resolve. rewrite Hu.
  destruct (find_cycle rs) as [c|] eqn:Hc.
  - exfalso. destruct (find_cycle_sound rs c Hc) as [z Hz]. exact (Hac z Hz).
  - destruct (kahn_progress rs Hnd Hac (length rs) (map r_name rs) [])
      as [o Ho]; [rewrite length_map; lia|reflexivity|].
    rewrite Ho. eauto.
Qed.

Lemma stm32g4_requirement_names : map fst stm32g4_requirements = ["cmsis"].
Proof. reflexivity. Qed.

Lemma repo_edges vc vf vn vh va a b :
  requires_edge (repo_recipes vc vf vn vh va) a b <->
  a = "stm32g4_hal_driver" /\ b = "cmsis".
Proof.
  split.
  - intros [r [Hr [<- Hb]]].
    simpl in Hr; destruct Hr as [<-|[<-|[<-|[<-|[<-|[]]]]]];
      [simpl in Hb; contradiction..| |simpl in Hb; contradiction].
    change (In b ["cmsis"]) in Hb. destruct Hb as [<-|[]]. auto.
  - intros [-> ->]. exists (stm32g4_recipe vh). simpl. split; [tauto|].
    split; [reflexivity|left; reflexivity].
Qed.

Lemma repo_acyclic vc vf vn vh va : acyclic (repo_recipes vc vf vn vh va).
Proof.
  intros z Hz.
  assert (H : forall x y, clos_trans string (requires_edge (repo_recipes vc vf vn vh va)) x y ->
              x = "stm32g4_hal_driver" /\ y = "cmsis").
  { intros x y Hxy. induction Hxy as [x y Hxy|x y w _ [_ Hy] _ [Hy' _]].
    - apply repo_edges in Hxy. exact Hxy.
    - exfalso. rewrite Hy in Hy'. discriminate. }
  destruct (H z z Hz) as [-> E]. discriminate.
Qed.

(** C1: for every recipe set with unique names, requirements that
    resolve and an acyclic requirement graph, [resolve] returns a build
    order (a permutation of the recipes) in which every dependency comes
    strictly before its dependent; in every build plan [resolve] returns
    for a set holding stm32g4_hal_driver, cmsis comes before it; and the
    repository's only declared edge is stm32g4_hal_driver -> cmsis. *)
Theorem resolve_topological_order :
  (forall rs, NoDup (map r_name rs) -> valid_requirements rs -> acyclic rs ->
     exists order, resolve rs = inr order /\ order ≡ₚ map r_name rs /\
       forall r d, In r rs -> In d (map fst (r_requires r)) -> before order d (r_name r)) /\
  (forall rs order v, NoDup (map r_name rs) -> In (stm32g4_recipe v) rs ->
     resolve rs = inr order -> before order "cmsis" "stm32g4_hal_driver") /\
  (forall vc vf vn vh va a b,
     requires_edge (repo_recipes vc vf vn vh va) a b <->
     a = "stm32g4_hal_driver" /\ b = "cmsis").
Proof.
  split; [|split].
  - intros rs Hnd Hv Hac.
    pose proof (valid_unresolved rs Hnd Hv) as Hu.
    destruct (resolve_progress rs Hnd Hu Hac) as [o Ho].
    destruct (resolve_sound rs o Hnd Ho) as [_ [Hp Ht]].
    exists o. split; [exact Ho|]. split; [exact Hp|].
    intros r d Hr Hd. eapply topo_before; eassumption.
  - intros rs o v Hnd Hin Ho.
    destruct (resolve_sound rs o Hnd Ho) as [Hu [Hp Ht]].
    apply (topo_before rs Hnd o (stm32g4_recipe v) "cmsis" Hp Ht Hin).
    cbn [r_requires stm32g4_recipe]. rewrite stm32g4_requirement_names.
    left. reflexivity.
  - exact repo_edges.
Qed.

Lemma resolve_topological_order_witness :
  NoDup (map r_name (repo_recipes "1.0.0" "11.1.0" "1.0.0" "1.2.0" "13.2.1")) /\
  valid_requirements (repo_recipes "1.0.0" "11.1.0" "1.0.0" "1.2.0" "13.2.1") /\
  acyclic (repo_recipes "1.0.0" "11.1.0" "1.0.0" "1.2.0" "13.2.1") /\
  (exists order,
     resolve (repo_recipes "1.0.0" "11.1.0" "1.0.0" "1.2.0" "13.2.1") = inr order /\
     before order "cmsis" "stm32g4_hal_driver").
Proof.
  assert (Hnd : NoDup (map r_name (repo_recipes "1.0.0" "11.1.0" "1.0.0" "1.2.0" "13.2.1")))
    by (vm_compute; repeat constructor; set_solver).
  assert (Hv : valid_requirements (repo_recipes "1.0.0" "11.1.0" "1.0.0" "1.2.0" "13.2.1")).
  { intros r d c Hr Hdc. simpl in Hr.
    destruct Hr as [<-|[<-|[<-|[<-|[<-|[]]]]]];
      [simpl in Hdc; contradiction..| |simpl in Hdc; contradiction].
    change (In (d, c) [("cmsis", Some "1.0.0")]) in Hdc.
    destruct Hdc as [E|[]]. injection E as <- <-.
    exists (cmsis_recipe "1.0.0"). simpl. auto. }
  pose proof (repo_acyclic "1.0.0" "11.1.0" "1.0.0" "1.2.0" "13.2.1") as Hac.
  split; [exact Hnd|]. split; [exact Hv|]. split; [exact Hac|].
  destruct (proj1 resolve_topological_order _ Hnd Hv Hac) as [o [Ho _]].
  exists o. split; [exact Ho|].
  apply (proj1 (proj2 resolve_topological_order) _ o "1.2.0" Hnd); [simpl; tauto|exact Ho].
Defined.

(* ------------------------------------------------------------------ *)
(** ** Independence of the input order, and the tie-break *)

Lemma list_filter_perm {A} (p : A -> bool) (l l' : list A) :
  l ≡ₚ l' -> List.filter p l ≡ₚ List.filter p l'.
Proof.
  induction 1 as [|x l l' _ IH|x y l|l l' l'' _ IH1 _ IH2]; simpl.
  - constructor.
  - destruct (p x); [constructor|]; exact IH.
  - destruct (p x), (p y); try constructor; reflexivity.
  - etransitivity; eassumption.
Qed.

Lemma remove_perm_compat (l l' : list string) m :
  l ≡ₚ l' -> remove string_dec m l ≡ₚ remove string_dec m l'.
Proof.
  induction 1 as [|x l l' _ IH|x y l|l l' l'' _ IH1 _ IH2]; simpl.
  - constructor.
  - destruct (string_dec m x); [exact IH|constructor; exact IH].
  - destruct (string_dec m x), (string_dec m y); try constructor; reflexivity.
  - etransitivity; eassumption.
Qed.

Lemma mem_perm x (l l' : list string) : l ≡ₚ l' -> mem x l = mem x l'.
Proof.
  intros Hp. apply Bool.eq_true_iff_eq. rewrite !mem_In.
  split; apply Permutation_in; [exact Hp|symmetry; exact Hp].
Qed.

Lemma min_name_perm (l l' : list string) : l ≡ₚ l' -> min_name l = min_name l'.
Proof.
  intros Hp. destruct (min_name l) as [m|] eqn:E1, (min_name l') as [m'|] eqn:E2.
  - apply min_name_some in E1 as [H1 H1'], E2 as [H2 H2']. f_equal.
    apply name_le_antisym.
    + apply H1'. rewrite Hp. exact H2.
    + apply H2'. rewrite <- Hp. exact H1.
  - apply min_name_none in E2. subst l'. symmetry in Hp. apply Permutation_nil in Hp.
    subst l. discriminate.
  - apply min_name_none in E1. subst l. apply Permutation_nil in Hp.
    subst l'. discriminate.
  - reflexivity.
Qed.

Lemma find_recipe_perm rs rs' n :
  NoDup (map r_name rs) -> rs ≡ₚ rs' -> find_recipe rs n = find_recipe rs' n.
Proof.
  intros Hnd Hp.
  assert (Hnd' : NoDup (map r_name rs')) by (rewrite <- Hp; exact Hnd).
  destruct (find_recipe rs n) as [r|] eqn:E1.
  - apply find_recipe_some in E1 as [Hr <-]. symmetry. apply find_recipe_in; [exact Hnd'|].
    rewrite <- Hp. exact Hr.
  - destruct (find_recipe rs' n) as [r'|] eqn:E2; [|reflexivity].
    apply find_recipe_some in E2 as [Hr' <-].
    rewrite (find_recipe_in rs r') in E1; [discriminate|exact Hnd|rewrite Hp; exact Hr'].
Qed.

Lemma deps_of_perm rs rs' n :
  NoDup (map r_name rs) -> rs ≡ₚ rs' -> deps_of rs n = deps_of rs' n.
Proof. intros Hnd Hp. unfold deps_of. rewrite (find_recipe_perm rs rs' n Hnd Hp). reflexivity. Qed.

Lemma indeg_perm rs rs' rem rem' n :
  NoDup (map r_name rs) -> rs ≡ₚ rs' -> rem ≡ₚ rem' ->
  indeg rs rem n = indeg rs' rem' n.
Proof.
  intros Hnd Hp Hr. unfold indeg. rewrite (deps_of_perm rs rs' n Hnd Hp).
  f_equal. apply filter_ext. intros d. apply mem_perm. exact Hr.
Qed.

Lemma kahn_perm rs rs' (Hnd : NoDup (map r_name rs)) (Hp : rs ≡ₚ rs') f :
  forall rem rem' em o, rem ≡ₚ rem' ->
  kahn rs f rem em = inr o -> kahn rs' f rem' em = inr o.
Proof.
  induction f as [|f IH]; intros rem rem' em o Hr Hk;
    (destruct rem as [|x l];
     [apply Permutation_nil in Hr; subst rem'; exact Hk|]);
    (destruct rem' as [|x' l'];
     [symmetry in Hr; apply Permutation_nil_cons in Hr as []|]);
    cbn [kahn] in Hk |- *; [discriminate|].
  assert (Hf : List.filter (fun n => Nat.eqb (indeg rs (x :: l) n) 0) (x :: l) =
               List.filter (fun n => Nat.eqb (indeg rs' (x' :: l') n) 0) (x :: l)).
  { apply filter_ext. intros n. rewrite (indeg_perm rs rs' (x :: l) (x' :: l') n Hnd Hp Hr).
    reflexivity. }
  rewrite Hf in Hk.
  rewrite (min_name_perm _ (List.filter (fun n => Nat.eqb (indeg rs' (x' :: l') n) 0) (x' :: l')))
    in Hk by (apply list_filter_perm; exact Hr).
  destruct (min_name _) as [m|]; [|discriminate].
  apply (IH (remove string_dec m (x :: l))); [apply remove_perm_compat; exact Hr|exact Hk].
Qed.

Lemma unresolved_nil_iff rs :
  unresolved rs = [] <->
  forall req, In req (flat_map r_requires rs) -> requirement_ok rs req = true.
Proof.
  unfold unresolved. split.
  - intros H req Hin. destruct (requirement_ok rs req) eqn:E; [reflexivity|].
    assert (Hf : In req (List.filter (fun req => negb (requirement_ok rs req))
                                     (flat_map r_requires rs)))
      by (apply filter_In; rewrite E; auto).
    rewrite H in Hf. destruct Hf.
  - intros H. destruct (List.filter _ _) as [|req l] eqn:E; [reflexivity|].
    assert (Hf : In req (List.filter (fun req => negb (requirement_ok rs req))
                                     (flat_map r_requires rs))) by (rewrite E; left; reflexivity).
    apply filter_In in Hf as [Hf Hb]. rewrite (H req Hf) in Hb. discriminate.
Qed.

Lemma requirement_ok_perm rs rs' req :
  NoDup (map r_name rs) -> rs ≡ₚ rs' -> requirement_ok rs req = requirement_ok rs' req.
Proof.
  intros Hnd Hp. destruct req as [d c]. unfold requirement_ok.
  rewrite (find_recipe_perm rs rs' d Hnd Hp).
  rewrite (Permutation_length (list_filter_perm (fun r => String.eqb (r_name r) d) _ _ Hp)).
  reflexivity.
Qed.

Lemma unresolved_perm rs rs' :
  NoDup (map r_name rs) -> rs ≡ₚ rs' -> unresolved rs = [] -> unresolved rs' = [].
Proof.
  intros Hnd Hp Hu. apply unresolved_nil_iff. intros req Hin.
  rewrite <- (requirement_ok_perm rs rs' req Hnd Hp).
  apply (proj1 (unresolved_nil_iff rs) Hu). rewrite Hp. exact Hin.
Qed.

Lemma edge_perm rs rs' a b :
  rs ≡ₚ rs' -> requires_edge rs a b -> requires_edge rs' a b.
Proof.
  intros Hp [r [Hr H]]. exists r. split; [|exact H]. rewrite <- Hp. exact Hr.
Qed.


Lemma index_of_app_in x l1 l2 : In x l1 -> (index_of x (l1 ++ l2) < length l1)%nat.
Proof.
  induction l1 as [|y l1 IH]; simpl; [tauto|]. intros [->|H].
  - rewrite String.eqb_refl. lia.
  - destruct (String.eqb y x); [lia|]. specialize (IH H). lia.
Qed.

Lemma index_of_app_notin x l1 l2 : ~ In x l1 -> index_of x (l1 ++ x :: l2) = length l1.
Proof.
  induction l1 as [|y l1 IH]; simpl; intros H.
  - rewrite String.eqb_refl. reflexivity.
  - destruct (String.eqb y x) eqn:E; [apply String.eqb_eq in E; tauto|].
    rewrite IH; tauto.
Qed.

Lemma topo_acyclic rs o :
  NoDup (map r_name rs) -> o ≡ₚ map r_name rs -> topo rs o -> acyclic rs.
Proof.
  intros Hnd Hp Ht.
  assert (Hnd' : NoDup o) by (rewrite Hp; exact Hnd).
  assert (Hstep : forall a b, requires_edge rs a b -> (index_of b o < index_of a o)%nat).
  { intros a b Hab. pose proof (edge_deps rs a b Hnd Hab) as Hd.
    destruct Hab as [r [Hr [<- _]]].
    assert (Hin : In (r_name r) o) by (rewrite Hp; apply in_map; exact Hr).
    apply in_split in Hin as [l1 [l2 Heq]].
    pose proof (Ht l1 (r_name r) l2 Heq b Hd) as Hb.
    rewrite Heq in Hnd' |- *.
    apply NoDup_app in Hnd' as [_ [Hdis _]].
    assert (Hna : ~ In (r_name r) l1).
    { intros Hx. apply (Hdis (r_name r)); [apply list_elem_of_In; exact Hx|left]. }
    rewrite index_of_app_notin by exact Hna.
    pose proof (index_of_app_in b l1 (r_name r :: l2) Hb). lia. }
  intros z Hz.
  assert (Hlt : forall x y, clos_trans string (requires_edge rs) x y ->
                (index_of y o < index_of x o)%nat).
  { intros x y Hxy. induction Hxy as [x y Hxy|x y w _ IH1 _ IH2].
    - apply Hstep. exact Hxy.
    - lia. }
  pose proof (Hlt z z Hz). lia.
Qed.

Lemma resolve_perm rs rs' o :
  NoDup (map r_name rs) -> rs ≡ₚ rs' -> resolve rs = inr o -> resolve rs' = inr o.
Proof.
  intros Hnd Hp Ho.
  destruct (resolve_sound rs o Hnd Ho) as [Hu [Hop Ht]].
  pose proof (topo_acyclic rs o Hnd Hop Ht) as Hac.
  assert (Hnd' : NoDup (map r_name rs')) by (rewrite <- Hp; exact Hnd).
  assert (Hac' : acyclic rs').
  { assert (Hc : forall x y, clos_trans string (requires_edge rs') x y ->
                            clos_trans string (requires_edge rs) x y).
    { intros x y Hxy. induction Hxy as [x y Hxy|x y w _ IH1 _ IH2].
      - apply t_step. apply (edge_perm rs' rs); [symmetry; exact Hp|exact Hxy].
      - eapply t_trans; eassumption. }
    intros z Hz. exact (Hac z (Hc z z Hz)). }
  pose proof (unresolved_perm rs rs' Hnd Hp Hu) as Hu'.
  unfold resolve in Ho |- *. rewrite Hu in Ho. rewrite Hu'.
  destruct (find_cycle rs) as [c|]; [discriminate|].
  destruct (find_cycle rs') as [c|] eqn:Hc.
  { exfalso. destruct (find_cycle_sound rs' c Hc) as [z Hz]. exact (Hac' z Hz). }
  destruct (kahn rs (length rs) (map r_name rs) []) as [|o'] eqn:Hk; [discriminate|].
  injection Ho as <-.
  rewrite <- (Permutation_length Hp).
  rewrite (kahn_perm rs rs' Hnd Hp (length rs) (map r_name rs) (map r_name rs') [] o');
    [reflexivity| |exact Hk].
  apply Permutation_map. exact Hp.
Qed.

Section TieBreak.
Variable rs : list recipe.
Hypothesis Hnd : NoDup (map r_name rs).
Local Abbreviation names := (map r_name rs).

Lemma kahn_suffix f : forall rem em o,
  (em ++ rem) ≡ₚ names -> kahn rs f rem em = inr o ->
  exists rest, o = em ++ rest /\ rest ≡ₚ rem.
Proof.
  induction f as [|f IH]; intros rem em o Hp Hk;
    (destruct rem as [|x rem']; cbn [kahn] in Hk;
     [injection Hk as <-; exists []; rewrite app_nil_r; auto|]).
  - discriminate.
  - destruct (min_name _) as [m|] eqn:Hmin; [|discriminate].
    apply min_name_some in Hmin as [Hm _]. apply filter_In in Hm as [Hm _].
    destruct (IH _ _ o (kahn_step_perm rs Hnd _ _ _ Hp Hm) Hk) as [rest [-> Hr]].
    exists (m :: rest). rewrite <- app_assoc. split; [reflexivity|].
    rewrite Hr. symmetry. apply remove_perm; [|exact Hm].
    assert (Hnd' : NoDup (em ++ x :: rem')) by (rewrite Hp; exact Hnd).
    apply NoDup_app in Hnd' as [_ [_ H]]. exact H.
Qed.

Lemma kahn_tiebreak f : forall rem em o,
  (em ++ rem) ≡ₚ names -> kahn rs f rem em = inr o ->
  forall l1 m l2, o = l1 ++ m :: l2 -> (length em <= length l1)%nat ->
  forall x, In x (m :: l2) -> (forall d, In d (deps_of rs x) -> In d l1) ->
  name_le m x.
Proof.
  induction f as [|f IH]; intros rem em o Hp Hk l1 m l2 Ho Hlen x Hx Hdeps;
    (destruct rem as [|y rem']; cbn [kahn] in Hk;
     [injection Hk as <-; subst em; rewrite length_app in Hlen; simpl in Hlen; lia|]).
  - discriminate.
  - destruct (min_name _) as [m0|] eqn:Hmin; [|discriminate].
    pose proof Hmin as Hmin'.
    apply min_name_some in Hmin as [Hm0 Hmin]. pose proof Hm0 as Hm0f.
    apply filter_In in Hm0 as [Hm0 _].
    pose proof (kahn_step_perm rs Hnd _ _ _ Hp Hm0) as Hp'.
    destruct (Nat.eq_dec (length l1) (length em)) as [Heq|Hneq].
    + destruct (kahn_suffix f _ _ o Hp' Hk) as [rest [Hrest Hr]].
      rewrite <- app_assoc in Hrest. simpl in Hrest. rewrite Ho in Hrest.
      apply app_inj_1 in Hrest as [-> Hml]; [|exact Heq].
      injection Hml as <- <-.
      destruct Hx as [<-|Hx]; [unfold name_le; apply name_lt_irrefl|].
      apply Hmin. apply filter_In.
      assert (Hxr : In x (y :: rem')).
      { rewrite Hr in Hx. apply in_remove in Hx as [Hx _]. exact Hx. }
      split; [exact Hxr|]. apply Nat.eqb_eq.
      assert (Hnd' : NoDup (em ++ y :: rem')) by (rewrite Hp; exact Hnd).
      apply NoDup_app in Hnd' as [_ [Hdis _]].
      unfold indeg.
      destruct (List.filter (fun d => mem d (y :: rem')) (deps_of rs x)) as [|d l] eqn:E;
        [reflexivity|exfalso].
      assert (Hd : In d (List.filter (fun d => mem d (y :: rem')) (deps_of rs x)))
        by (rewrite E; left; reflexivity).
      apply filter_In in Hd as [Hd Hdr]. apply mem_In in Hdr.
      apply (Hdis d); apply list_elem_of_In; [apply Hdeps; exact Hd|exact Hdr].
    + apply (IH _ _ o Hp' Hk l1 m l2 Ho); [|exact Hx|exact Hdeps].
      rewrite length_app. simpl. lia.
Qed.
End TieBreak.

(** C7: [resolve] is a function of the recipe set: reordering the
    recipes (unique names) leaves a successful build order unchanged, in
    particular two runs on the same set give the same order; and the
    order breaks ties by ascending name: each emitted node is the least
    name among the not yet emitted nodes whose requirements have all
    been emitted (zero in-degree). *)
Theorem resolve_deterministic :
  (forall rs rs' order, NoDup (map r_name rs) -> rs ≡ₚ rs' ->
     resolve rs = inr order -> resolve rs' = inr order) /\
  (forall rs order, NoDup (map r_name rs) -> resolve rs = inr order ->
     forall l1 m l2, order = l1 ++ m :: l2 ->
     forall x, In x (m :: l2) -> (forall d, In d (deps_of rs x) -> In d l1) ->
     name_le m x).
Proof.
  split.
  - exact resolve_perm.
  - intros rs o Hnd Ho l1 m l2 Heq x Hx Hd.
    unfold resolve in Ho.
    destruct (unresolved rs) as [|[? ?] ?]; [|discriminate].
    destruct (find_cycle rs); [discriminate|].
    destruct (kahn rs (length rs) (map r_name rs) []) as [|o'] eqn:Hk; [discriminate|].
    injection Ho as <-.
    apply (kahn_tiebreak rs Hnd (length rs) (map r_name rs) [] o' (reflexivity _) Hk
             l1 m l2 Heq); [simpl; lia|exact Hx|exact Hd].
Qed.

Lemma resolve_deterministic_witness :
  NoDup (map r_name (repo_recipes "1.0.0" "11.1.0" "1.0.0" "1.2.0" "13.2.1")) /\
  resolve [arm_recipe "13.2.1"; stm32g4_recipe "1.2.0"; freertos_recipe "11.1.0";
           st67w6x_recipe "1.0.0"; cmsis_recipe "1.0.0"] =
  inr ["arm-none-eabi-gcc"; "cmsis"; "freertos"; "st67w6x_network_driver";
       "stm32g4_hal_driver"].
Proof.
  assert (Hnd : NoDup (map r_name (repo_recipes "1.0.0" "11.1.0" "1.0.0" "1.2.0" "13.2.1")))
    by (vm_compute; repeat constructor; set_solver).
  split; [exact Hnd|].
  apply (proj1 resolve_deterministic (repo_recipes "1.0.0" "11.1.0" "1.0.0" "1.2.0" "13.2.1")).
  - exact Hnd.
  - unfold repo_recipes. solve_Permutation.
  - vm_compute. reflexivity.
Defined.

(* ------------------------------------------------------------------ *)
(** ** Version loading *)


Lemma lstrip_head l c : head (lstrip_chars l) = Some c -> py_isspace c = false.
Proof.
  induction l as [|x l IH]; simpl; [discriminate|].
  destruct (py_isspace x) eqn:E; [exact IH|]. simpl. intros H. injection H as <-. exact E.
Qed.

Lemma lstrip_snoc l c : py_isspace c = false -> lstrip_chars (l ++ [c]) = lstrip_chars l ++ [c].
Proof.
  intros Hc. induction l as [|x l IH]; simpl.
  - rewrite Hc. reflexivity.
  - destruct (py_isspace x); [exact IH|reflexivity].
Qed.

Lemma last_rev_head {A} (k : list A) : last (rev k) = head k.
Proof. destruct k as [|x k]; simpl; [reflexivity|]. apply last_snoc. Qed.

Lemma py_strip_trimmed s : trimmed (py_strip s).
Proof.
  unfold trimmed, py_strip.
  intros c [Hh|Hl].
  - destruct (lstrip_chars s) as [|x m] eqn:E; [simpl in Hh; discriminate|].
    assert (Hx : py_isspace x = false)
      by (apply (lstrip_head s); rewrite E; reflexivity).
    simpl in Hh. rewrite lstrip_snoc in Hh by exact Hx.
    rewrite rev_app_distr in Hh. simpl in Hh. injection Hh as <-. exact Hx.
  - rewrite last_rev_head in Hl. eapply lstrip_head. exact Hl.
Qed.

Lemma set_version_result (fs : folder) :
  fst (set_version fs) = ["version.txt"] /\
  (fs "version.txt" = None -> snd (set_version fs) = inl (FileNotFound "version.txt")) /\
  (forall bs, fs "version.txt" = Some bs -> utf8_decode (list_ascii_of_string bs) = None ->
     snd (set_version fs) = inl (UnicodeDecodeError "version.txt")) /\
  (forall bs s, fs "version.txt" = Some bs -> utf8_decode (list_ascii_of_string bs) = Some s ->
     snd (set_version fs) = inr (py_strip s)).
Proof.
  unfold set_version, load. split; [reflexivity|]. split; [|split].
  - intros H. rewrite H. reflexivity.
  - intros bs H Hd. rewrite H, Hd. reflexivity.
  - intros bs s H Hd. rewrite H, Hd. reflexivity.
Qed.

(** C2: loading a recipe reads its [version.txt] exactly once; it fails
    with [InvalidVersion] when the file is missing or its decoded content
    is empty after [str.strip]; otherwise the version is the stripped
    content, and any version it returns is non-empty, has no whitespace
    at either end and is the stripped content of the file. *)
Theorem load_recipe_version_spec (fs : folder) :
  fst (load_recipe_version fs) = ["version.txt"] /\
  (fs "version.txt" = None -> snd (load_recipe_version fs) = inl InvalidVersion) /\
  (forall bs s, fs "version.txt" = Some bs -> utf8_decode (list_ascii_of_string bs) = Some s ->
     (py_strip s = [] -> snd (load_recipe_version fs) = inl InvalidVersion) /\
     (py_strip s <> [] -> snd (load_recipe_version fs) = inr (py_strip s))) /\
  (forall v, snd (load_recipe_version fs) = inr v ->
     v <> [] /\ trimmed v /\
     exists bs s, fs "version.txt" = Some bs /\
                  utf8_decode (list_ascii_of_string bs) = Some s /\ v = py_strip s).
Proof.
  destruct (set_version_result fs) as [Htr [Hnone [Hbad Hok]]].
  unfold load_recipe_version.
  destruct (set_version fs) as [tr r] eqn:Hs. cbn [fst snd] in *.
  split; [exact Htr|]. split; [|split].
  - intros H. rewrite (Hnone H). reflexivity.
  - intros bs s H Hd. rewrite (Hok bs s H Hd). split.
    + intros ->. reflexivity.
    + destruct (py_strip s) as [|x m]; [congruence|]. reflexivity.
  - intros v Hv.
    destruct (fs "version.txt") as [bs|] eqn:Hf.
    + destruct (utf8_decode (list_ascii_of_string bs)) as [s|] eqn:Hd.
      * rewrite (Hok bs s eq_refl Hd) in Hv.
        destruct (py_strip s) as [|x m] eqn:Hp; [discriminate|].
        injection Hv as <-. split; [discriminate|]. split.
        -- rewrite <- Hp. apply py_strip_trimmed.
        -- exists bs, s. auto.
      * rewrite (Hbad bs eq_refl Hd) in Hv. discriminate.
    + rewrite (Hnone eq_refl) in Hv. discriminate.
Qed.

Lemma load_recipe_version_spec_witness :
  snd (load_recipe_version (version_folder (String.append "1.0.0" (String.append nbsp newline)))) =
    inr (ascii_text "1.0.0") /\
  snd (load_recipe_version (version_folder (String.append " " newline))) = inl InvalidVersion /\
  snd (load_recipe_version (fun _ => None)) = inl InvalidVersion.
Proof.
  split; [|split].
  - destruct (load_recipe_version_spec
                (version_folder (String.append "1.0.0" (String.append nbsp newline))))
      as [_ [_ [H _]]].
    apply (H _ (ascii_text "1.0.0" ++ [160%N; 10%N]) eq_refl); [vm_compute; reflexivity|].
    vm_compute. discriminate.
  - destruct (load_recipe_version_spec (version_folder (String.append " " newline)))
      as [_ [_ [H _]]].
    apply (H _ [32%N; 10%N] eq_refl); [vm_compute; reflexivity|].
    vm_compute. reflexivity.
  - apply (proj1 (proj2 (load_recipe_version_spec (fun _ => None)))). reflexivity.
Defined.

(* ------------------------------------------------------------------ *)
(** ** FreeRTOS build-info *)

(** C10: FreeRTOS's [package_info] appends ["include"] to whatever
    include list it finds and empties [libdirs] and [bindirs]; from
    Conan's default [cpp_info] its exported [includedirs] is therefore
    ["include"; "include"], with empty [libdirs] and [bindirs]. *)
Theorem freertos_includedirs_appended :
  (forall s, includedirs (st_cpp (freertos_package_info s)) = includedirs (st_cpp s) ++ ["include"] /\
             libdirs (st_cpp (freertos_package_info s)) = [] /\
             bindirs (st_cpp (freertos_package_info s)) = []) /\
  st_cpp (freertos_package_info default_info_state) =
    {| includedirs := ["include"; "include"]; libdirs := []; bindirs := []; srcdirs := [] |}.
Proof. split; [intros s; repeat split|reflexivity]. Qed.

(* ------------------------------------------------------------------ *)
(** ** Packaging *)

Lemma strip_prefix_app pre p rel : strip_prefix pre p = Some rel -> p = pre ++ rel.
Proof.
  revert p. induction pre as [|a pre IH]; intros p H; simpl in H.
  - injection H as <-. reflexivity.
  - destruct p as [|b p]; [discriminate|].
    destruct (String.eqb a b) eqn:E; [|discriminate].
    apply String.eqb_eq in E. subst b. simpl. f_equal. apply IH. exact H.
Qed.

Lemma strip_prefix_self pre rel : strip_prefix pre (pre ++ rel) = Some rel.
Proof. induction pre as [|a pre IH]; simpl; [reflexivity|]. rewrite String.eqb_refl. exact IH. Qed.

Lemma last_default_irrel (l : list string) : forall x (a b : string),
  List.last (x :: l) a = List.last (x :: l) b.
Proof.
  induction l as [|y l IH]; intros x a b; [reflexivity|].
  change (List.last (y :: l) a = List.last (y :: l) b). apply IH.
Qed.

Lemma rule_writes_in t r d c :
  In (d, c) (rule_writes t r) ->
  exists rel, In (cp_src r ++ rel, c) t /\ rel <> [] /\
    d = cp_dst r ++ (if cp_keep_path r then rel else [List.last rel ""]).
Proof.
  unfold rule_writes. intros H. apply in_flat_map in H as [[p c0] [Hp H]].
  destruct (strip_prefix (cp_src r) p) as [[|h tl]|] eqn:Hs; try destruct H.
  destruct (pattern_matches (cp_pattern r) (h :: tl)); [|destruct H].
  destruct H as [H|[]]. injection H as <- <-.
  apply strip_prefix_app in Hs. subst p.
  exists (h :: tl). split; [exact Hp|]. split; [discriminate|].
  destruct (cp_keep_path r); [reflexivity|].
  f_equal. f_equal. apply last_default_irrel.
Qed.

Lemma all_writes_in rules t d c :
  In (d, c) (all_writes rules t) -> exists r, In r rules /\ In (d, c) (rule_writes t r).
Proof. unfold all_writes. intros H. apply in_flat_map in H. exact H. Qed.

Lemma nodup_fst_unique (t : file_tree) p c c' :
  NoDup (map fst t) -> In (p, c) t -> In (p, c') t -> c = c'.
Proof.
  induction t as [|[q b] t IH]; simpl; [tauto|].
  intros Hnd H1 H2. apply NoDup_cons in Hnd as [Hq Hnd].
  destruct H1 as [H1|H1], H2 as [H2|H2].
  - congruence.
  - injection H1 as -> ->. exfalso. apply Hq. apply list_elem_of_In.
    apply (in_map fst) in H2. exact H2.
  - injection H2 as -> ->. exfalso. apply Hq. apply list_elem_of_In.
    apply (in_map fst) in H1. exact H1.
  - apply IH; assumption.
Qed.

Lemma apply_writes_ok : forall ws (out : output_tree),
  (forall d c, out !! d = Some c -> forall c', In (d, c') ws -> c' = c) ->
  (forall d c c', In (d, c) ws -> In (d, c') ws -> c = c') ->
  exists out', apply_writes out ws = inr out'.
Proof.
  induction ws as [|[d c] ws IH]; intros out H1 H2; simpl; [eauto|].
  destruct (out !! d) as [c'|] eqn:E.
  - rewrite (H1 d c' E c (or_introl eq_refl)). rewrite decide_True by reflexivity.
    apply IH; [intros d0 c0 H c1 Hc1; apply (H1 d0 c0 H); right; exact Hc1|].
    intros d0 c0 c1 Ha Hb. apply (H2 d0); right; assumption.
  - apply IH.
    + intros d0 c0 H c1 Hc1. destruct (decide (d0 = d)) as [->|Hne].
      * rewrite lookup_insert_eq in H. injection H as <-.
        apply (H2 d); [right; exact Hc1|left; reflexivity].
      * rewrite lookup_insert_ne in H by congruence.
        apply (H1 d0 c0 H). right. exact Hc1.
    + intros d0 c0 c1 Ha Hb. apply (H2 d0); right; assumption.
Qed.

(** When every write's bytes are those of the source file its
    destination determines, no two writes disagree. *)
Lemma package_no_conflict rules (t : file_tree) (src_of : path -> path) :
  NoDup (map fst t) ->
  (forall d c, In (d, c) (all_writes rules t) -> In (src_of d, c) t) ->
  exists out, package_step rules t = inr out.
Proof.
  intros Hnd Hsrc. unfold package_step, package_into.
  apply apply_writes_ok.
  - intros d c H. rewrite lookup_empty in H. discriminate.
  - intros d c c' Ha Hb. apply (nodup_fst_unique t (src_of d)); auto.
Qed.

Lemma apply_writes_extends : forall ws (o o' : output_tree),
  apply_writes o ws = inr o' -> forall k v, o !! k = Some v -> o' !! k = Some v.
Proof.
  induction ws as [|[d c] ws IH]; intros o o' H k v Hk; simpl in H.
  - injection H as <-. exact Hk.
  - destruct (o !! d) as [c'|] eqn:E.
    + destruct (decide (c' = c)); [|discriminate]. eapply IH; eassumption.
    + apply (IH _ _ H). destruct (decide (k = d)) as [->|Hne]; [congruence|].
      rewrite lookup_insert_ne by congruence. exact Hk.
Qed.

Lemma apply_writes_idem : forall ws (o o' : output_tree),
  apply_writes o ws = inr o' -> apply_writes o' ws = inr o'.
Proof.
  induction ws as [|[d c] ws IH]; intros o o' H; simpl in H |- *; [reflexivity|].
  assert (Hd : o' !! d = Some c).
  { destruct (o !! d) as [c'|] eqn:E.
    - destruct (decide (c' = c)) as [<-|]; [|discriminate].
      eapply apply_writes_extends; eassumption.
    - eapply apply_writes_extends; [exact H|]. apply lookup_insert_eq. }
  rewrite Hd, decide_True by reflexivity.
  destruct (o !! d) as [c'|].
  - destruct (decide (c' = c)); [|discriminate]. eapply IH; eassumption.
  - eapply IH; eassumption.
Qed.

(** Rules copying a subtree onto the same subtree write each file at its
    own path. *)
Lemma identity_rules_writes rules t d c :
  (forall r, In r rules -> cp_dst r = cp_src r /\ cp_keep_path r = true) ->
  In (d, c) (all_writes rules t) -> In (d, c) t.
Proof.
  intros Hr H. apply all_writes_in in H as [r [Hin H]].
  apply rule_writes_in in H as [rel [Ht [_ ->]]].
  destruct (Hr r Hin) as [-> ->]. exact Ht.
Qed.



Lemma stm32g4_writes t d c :
  In (d, c) (all_writes stm32g4_package t) -> In (stm32g4_src_of d, c) t.
Proof.
  intros H. apply all_writes_in in H as [r [Hin H]].
  simpl in Hin. destruct Hin as [<-|[<-|[<-|[]]]];
    apply rule_writes_in in H as [rel [Ht [_ ->]]]; exact Ht.
Qed.

Lemma cmsis_writes t d c :
  In (d, c) (all_writes cmsis_package t) -> In (cmsis_src_of d, c) t.
Proof.
  intros H. apply all_writes_in in H as [r [Hin H]].
  simpl in Hin. destruct Hin as [<-|[]].
  apply rule_writes_in in H as [rel [Ht [_ ->]]]. exact Ht.
Qed.

Lemma list_ascii_of_string_append a b :
  list_ascii_of_string (String.append a b) = list_ascii_of_string a ++ list_ascii_of_string b.
Proof. induction a as [|x a IH]; simpl; [reflexivity|]. rewrite IH. reflexivity. Qed.

Lemma fnmatch_star_cons p' x s :
  fnmatch_chars ("*"%char :: p') (x :: s) =
  fnmatch_chars p' (x :: s) || fnmatch_chars ("*"%char :: p') s.
Proof. reflexivity. Qed.

Lemma fnmatch_star_prefix p' a s :
  fnmatch_chars ("*"%char :: p') s = true -> fnmatch_chars ("*"%char :: p') (a ++ s) = true.
Proof.
  intros H. induction a as [|x a IH]; [exact H|].
  simpl app. rewrite fnmatch_star_cons, IH. apply orb_true_r.
Qed.

Lemma pattern_h_under rel : rel <> [] ->
  pattern_matches "*.h" rel = true -> pattern_matches "*.h" ("Legacy" :: rel) = true.
Proof.
  intros Hne H. destruct rel as [|h tl]; [congruence|].
  unfold pattern_matches in *.
  change (join_path ("Legacy" :: h :: tl))
    with (String.append "Legacy" (String.append "/" (join_path (h :: tl)))).
  rewrite !list_ascii_of_string_append, !map_app, app_assoc.
  exact (fnmatch_star_prefix _ _ _ H).
Qed.

(** C9: in stm32g4_hal_driver's packaging the rule for [Inc/*.h] and the
    rule for [Inc/Legacy/*.h] write every header [Inc/Legacy/rel] to the
    same destination [include/Legacy/rel], with the same bytes; any two
    writes to one destination carry the same bytes, so for every source
    tree (one file per path) packaging never fails with CopyConflict. *)
Theorem stm32g4_no_copy_conflict :
  (forall (t : file_tree) rel c, rel <> [] ->
     In (["Inc"; "Legacy"] ++ rel, c) t -> pattern_matches "*.h" rel = true ->
     In (["include"; "Legacy"] ++ rel, c) (rule_writes t (keep "*.h" ["Inc"] ["include"])) /\
     In (["include"; "Legacy"] ++ rel, c)
        (rule_writes t (keep "*.h" ["Inc"; "Legacy"] ["include"; "Legacy"]))) /\
  (forall (t : file_tree) d c c', NoDup (map fst t) ->
     In (d, c) (all_writes stm32g4_package t) -> In (d, c') (all_writes stm32g4_package t) ->
     c = c') /\
  (forall (t : file_tree), NoDup (map fst t) ->
     exists out, package_step stm32g4_package t = inr out).
Proof.
  split; [|split].
  - intros t rel c Hne Hin Hm. destruct rel as [|h tl]; [congruence|].
    split; unfold rule_writes; apply in_flat_map; eexists; (split; [exact Hin|]).
    + cbn [cp_src keep].
      change (["Inc"; "Legacy"] ++ h :: tl) with (["Inc"] ++ ("Legacy" :: h :: tl)).
      rewrite (strip_prefix_self ["Inc"] ("Legacy" :: h :: tl)).
      cbn [cp_pattern keep]. rewrite (pattern_h_under (h :: tl)); [left; reflexivity|congruence|exact Hm].
    + cbn [cp_src keep]. rewrite (strip_prefix_self ["Inc"; "Legacy"] (h :: tl)).
      cbn [cp_pattern keep]. rewrite Hm. left. reflexivity.
  - intros t d c c' Hnd H1 H2. apply (nodup_fst_unique t (stm32g4_src_of d)); [exact Hnd| |];
      apply stm32g4_writes; assumption.
  - intros t Hnd. apply (package_no_conflict _ t stm32g4_src_of Hnd). apply stm32g4_writes.
Qed.


Lemma stm32g4_no_copy_conflict_witness :
  NoDup (map fst hal_sample_tree) /\
  exists out, package_step stm32g4_package hal_sample_tree = inr out.
Proof.
  assert (Hnd : NoDup (map fst hal_sample_tree)) by (vm_compute; repeat constructor; set_solver).
  split; [exact Hnd|]. exact (proj2 (proj2 stm32g4_no_copy_conflict) _ Hnd).
Defined.

(** C8: packaging is idempotent: for every recipe of the repository and
    every source tree (one file per path), the packaging step succeeds,
    and invoking it again on its own output leaves that output
    byte-identical. *)
Theorem package_idempotent :
  forall vc vf vn vh va r (t : file_tree), In r (repo_recipes vc vf vn vh va) ->
  NoDup (map fst t) ->
  exists out, package_step (r_package r) t = inr out /\
              package_into out (r_package r) t = inr out.
Proof.
  intros vc vf vn vh va r t Hr Hnd.
  assert (Hex : exists out, package_step (r_package r) t = inr out).
  { simpl in Hr. destruct Hr as [<-|[<-|[<-|[<-|[<-|[]]]]]]; cbn [r_package].
    - apply (package_no_conflict _ t cmsis_src_of Hnd). apply cmsis_writes.
    - apply (package_no_conflict _ t (fun d => d) Hnd).
      intros d c Hw. refine (identity_rules_writes _ t d c _ Hw).
      intros r Hin. simpl in Hin.
      repeat (destruct Hin as [<-|Hin]; [split; reflexivity|]). destruct Hin.
    - apply (package_no_conflict _ t (fun d => d) Hnd).
      intros d c Hw. refine (identity_rules_writes _ t d c _ Hw).
      intros r Hin. simpl in Hin.
      repeat (destruct Hin as [<-|Hin]; [split; reflexivity|]). destruct Hin.
    - apply (package_no_conflict _ t stm32g4_src_of Hnd). apply stm32g4_writes.
    - apply (package_no_conflict _ t (fun d => d) Hnd).
      intros d c Hw. refine (identity_rules_writes _ t d c _ Hw).
      intros r Hin. simpl in Hin.
      repeat (destruct Hin as [<-|Hin]; [split; reflexivity|]). destruct Hin. }
  destruct Hex as [out Hout]. exists out. split; [exact Hout|].
  exact (apply_writes_idem _ _ _ Hout).
Qed.

Lemma package_idempotent_witness :
  In (stm32g4_recipe "1.2.0") (repo_recipes "1.0.0" "11.1.0" "1.0.0" "1.2.0" "13.2.1") /\
  NoDup (map fst hal_sample_tree) /\
  exists out, package_step stm32g4_package hal_sample_tree = inr out /\
              package_into out stm32g4_package hal_sample_tree = inr out.
Proof.
  assert (Hin : In (stm32g4_recipe "1.2.0") (repo_recipes "1.0.0" "11.1.0" "1.0.0" "1.2.0" "13.2.1"))
    by (simpl; tauto).
  assert (Hnd : NoDup (map fst hal_sample_tree)) by (vm_compute; repeat constructor; set_solver).
  split; [exact Hin|]. split; [exact Hnd|].
  exact (package_idempotent _ _ _ _ _ _ _ Hin Hnd).
Defined.

(* ------------------------------------------------------------------ *)
(** ** Acquisition *)


(** C3: on a cache miss, downloaded bytes whose digest differs from the
    expected checksum make [acquire] (and the toolchain's [build]) fail
    with ChecksumMismatch, with the cache left as it was, so no entry for
    (url, checksum); and from a sound cache every artifact [acquire]
    returns comes from bytes whose digest is the expected checksum, the
    cache staying sound. *)
Theorem acquire_checksum_mismatch :
  (forall digest download extract (cache : artifact_cache) url expected strip,
     cache !! (url, expected) = None -> digest (download url) <> expected ->
     acquire digest download extract cache url expected strip =
       (inl (ChecksumMismatch expected (digest (download url))), cache, 1%nat)) /\
  (forall digest download extract (cache : artifact_cache),
     cache !! (arm_toolchain_url, arm_toolchain_sha256) = None ->
     digest (download arm_toolchain_url) <> arm_toolchain_sha256 ->
     arm_build digest download extract cache =
       (inl (ChecksumMismatch arm_toolchain_sha256 (digest (download arm_toolchain_url))),
        cache, 1%nat)) /\
  (forall digest download extract (cache : artifact_cache) url expected strip res cache' n,
     cache_sound digest cache ->
     acquire digest download extract cache url expected strip = (res, cache', n) ->
     cache_sound digest cache' /\
     forall tree, res = inr tree ->
       exists bytes, cache' !! (url, expected) = Some bytes /\ digest bytes = expected /\
                     tree = extract strip bytes).
Proof.
  assert (Hmiss : forall digest download extract (cache : artifact_cache) url expected strip,
     cache !! (url, expected) = None -> digest (download url) <> expected ->
     acquire digest download extract cache url expected strip =
       (inl (ChecksumMismatch expected (digest (download url))), cache, 1%nat)).
  { intros digest download extract cache url expected strip Hc Hd.
    unfold acquire. rewrite Hc.
    destruct (String.eqb (digest (download url)) expected) eqn:E;
      [apply String.eqb_eq in E; contradiction|reflexivity]. }
  split; [exact Hmiss|]. split.
  - intros digest download extract cache Hc Hd. unfold arm_build. apply Hmiss; assumption.
  - intros digest download extract cache url expected strip res cache' n Hs Ha.
    unfold acquire in Ha. destruct (cache !! (url, expected)) as [b|] eqn:Hc.
    + injection Ha as <- <- _. split; [exact Hs|].
      intros tree Ht. injection Ht as <-. exists b. split; [exact Hc|].
      split; [eapply Hs; exact Hc|reflexivity].
    + destruct (String.eqb (digest (download url)) expected) eqn:E.
      * apply String.eqb_eq in E. injection Ha as <- <- _. split.
        -- intros u s b Hb. destruct (decide ((u, s) = (url, expected))) as [Heq|Hne].
           ++ injection Heq as -> ->. rewrite lookup_insert_eq in Hb. injection Hb as <-. exact E.
           ++ rewrite lookup_insert_ne in Hb by congruence. eapply Hs. exact Hb.
        -- intros tree Ht. injection Ht as <-. exists (download url).
           rewrite lookup_insert_eq. auto.
      * injection Ha as <- <- _. split; [exact Hs|]. intros tree Ht. discriminate.
Qed.


Lemma acquire_checksum_mismatch_witness :
  (∅ : artifact_cache) !! (arm_toolchain_url, arm_toolchain_sha256) = None /\
  sample_digest ((fun _ => [Byte.x00]) arm_toolchain_url) <> arm_toolchain_sha256 /\
  arm_build sample_digest (fun _ => [Byte.x00]) (fun _ _ => []) ∅ =
    (inl (ChecksumMismatch arm_toolchain_sha256 "nonempty"), ∅, 1%nat).
Proof.
  assert (H1 : (∅ : artifact_cache) !! (arm_toolchain_url, arm_toolchain_sha256) = None)
    by apply lookup_empty.
  assert (H2 : sample_digest ((fun _ => [Byte.x00]) arm_toolchain_url) <> arm_toolchain_sha256)
    by (vm_compute; discriminate).
  split; [exact H1|]. split; [exact H2|].
  exact (proj1 (proj2 acquire_checksum_mismatch) sample_digest (fun _ => [Byte.x00])
           (fun _ _ => []) ∅ H1 H2).
Defined.

(* ------------------------------------------------------------------ *)
(** ** Composition: concatenation with de-duplication *)

Section AppendNew.
Context {A : Type} `{EqDecision A}.

Lemma append_new_cons (acc : list A) x l :
  append_new acc (x :: l) =
  append_new (if decide (x ∈ acc) then acc else acc ++ [x]) l.
Proof. reflexivity. Qed.

Lemma append_new_app (acc l1 l2 : list A) :
  append_new acc (l1 ++ l2) = append_new (append_new acc l1) l2.
Proof. unfold append_new. apply fold_left_app. Qed.

Lemma append_new_prefix (acc l : list A) : exists s, append_new acc l = acc ++ s.
Proof.
  induction l as [|x l IH] in acc |- *.
  - exists []. rewrite app_nil_r. reflexivity.
  - rewrite append_new_cons. destruct (decide (x ∈ acc)).
    + apply IH.
    + destruct (IH (acc ++ [x])) as [s Hs]. exists (x :: s).
      rewrite Hs, <- app_assoc. reflexivity.
Qed.

Lemma append_new_in (acc l : list A) x :
  In x acc \/ In x l -> In x (append_new acc l).
Proof.
  induction l as [|y l IH] in acc |- *; cbn [In].
  - intros [H|[]]. exact H.
  - rewrite append_new_cons. intros [H|[<-|H]]; apply IH.
    + left. destruct (decide (y ∈ acc)); [exact H|apply in_or_app; left; exact H].
    + left. destruct (decide (y ∈ acc)) as [Hin|_].
      * apply list_elem_of_In. exact Hin.
      * apply in_or_app. right. left. reflexivity.
    + right. exact H.
Qed.

Lemma append_new_nodup (acc l : list A) : NoDup acc -> NoDup (append_new acc l).
Proof.
  induction l as [|y l IH] in acc |- *; [tauto|].
  intros Hn. rewrite append_new_cons. apply IH.
  destruct (decide (y ∈ acc)) as [_|Hy]; [exact Hn|].
  apply NoDup_app. split; [exact Hn|]. split; [|apply NoDup_singleton].
  intros z Hz Hz'. apply list_elem_of_singleton in Hz'. subst. contradiction.
Qed.
End AppendNew.

Lemma merge_info_exec acc x y :
  merge_info acc x = inr y ->
  merge_executables (bi_compiler_executables acc) (bi_compiler_executables x) =
  inr (bi_compiler_executables y).
Proof.
  unfold merge_info. destruct merge_executables; [discriminate|].
  intros H. injection H as <-. reflexivity.
Qed.

Ltac merge_field :=
  intros acc x y; unfold merge_info; destruct merge_executables; [discriminate|];
  intros H; injection H as <-; reflexivity.

Lemma merge_info_includes acc x y : merge_info acc x = inr y ->
  bi_include_dirs y = append_new (bi_include_dirs acc) (bi_include_dirs x).
Proof. revert acc x y. merge_field. Qed.

Lemma merge_info_cflags acc x y : merge_info acc x = inr y ->
  bi_cflags y = append_new (bi_cflags acc) (bi_cflags x).
Proof. revert acc x y. merge_field. Qed.

Lemma merge_info_cxxflags acc x y : merge_info acc x = inr y ->
  bi_cxxflags y = append_new (bi_cxxflags acc) (bi_cxxflags x).
Proof. revert acc x y. merge_field. Qed.

Lemma merge_info_linkflags acc x y : merge_info acc x = inr y ->
  bi_linkflags y = append_new (bi_linkflags acc) (bi_linkflags x).
Proof. revert acc x y. merge_field. Qed.

(** Merging a list of build-info de-duplicates the concatenation of a
    sequence-valued field over the list. *)
Lemma merge_all_seq {A} `{EqDecision A} (f : build_info -> list A) :
  (forall acc x y, merge_info acc x = inr y -> f y = append_new (f acc) (f x)) ->
  forall xs acc y, merge_all acc xs = inr y -> f y = append_new (f acc) (flat_map f xs).
Proof.
  intros Hf xs. induction xs as [|x xs IH]; intros acc y; simpl.
  - intros H. injection H as <-. reflexivity.
  - destruct (merge_info acc x) as [e|a] eqn:E; [discriminate|].
    intros H. rewrite (IH _ _ H), (Hf _ _ _ E), append_new_app. reflexivity.
Qed.

Lemma merge_all_app acc xs ys :
  merge_all acc (xs ++ ys) =
  match merge_all acc xs with inl e => inl e | inr a => merge_all a ys end.
Proof.
  induction xs as [|x xs IH] in acc |- *; simpl; [reflexivity|].
  destruct (merge_info acc x); [reflexivity|apply IH].
Qed.

(* ------------------------------------------------------------------ *)
(** ** Composition: compiler executables *)

Lemma assoc_in k l v : assoc k l = Some v -> In (k, v) l.
Proof.
  induction l as [|[k' v'] l IH]; simpl; [discriminate|].
  destruct (String.eqb k' k) eqn:E.
  - intros H. injection H as <-. apply String.eqb_eq in E. subst. left. reflexivity.
  - intros H. right. apply IH, H.
Qed.

Lemma assoc_app_some k l l' v : assoc k l = Some v -> assoc k (l ++ l') = Some v.
Proof.
  induction l as [|[k' v'] l IH]; simpl; [discriminate|].
  destruct (String.eqb k' k); [tauto|exact IH].
Qed.

Lemma assoc_app_none k l l' : assoc k l = None -> assoc k (l ++ l') = assoc k l'.
Proof.
  induction l as [|[k' v'] l IH]; simpl; [reflexivity|].
  destruct (String.eqb k' k); [discriminate|exact IH].
Qed.

Lemma merge_exec_keep acc new acc' k v :
  merge_executables acc new = inr acc' -> assoc k acc = Some v -> assoc k acc' = Some v.
Proof.
  induction new as [|[k1 v1] new IH] in acc |- *; simpl.
  - intros H. injection H as <-. tauto.
  - destruct (assoc k1 acc) as [w|] eqn:Ha.
    + destruct (String.eqb w v1); [apply IH|discriminate].
    + intros H Hk. apply (IH _ H). apply assoc_app_some, Hk.
Qed.

Lemma merge_exec_in acc new acc' k v :
  merge_executables acc new = inr acc' -> In (k, v) new -> assoc k acc' = Some v.
Proof.
  induction new as [|[k1 v1] new IH] in acc |- *; simpl; [tauto|].
  destruct (assoc k1 acc) as [w|] eqn:Ha.
  - destruct (String.eqb w v1) eqn:E; [|discriminate].
    apply String.eqb_eq in E. subst w.
    intros H [Hh|Hin]; [|exact (IH _ H Hin)].
    injection Hh as -> ->. exact (merge_exec_keep _ _ _ _ _ H Ha).
  - intros H [Hh|Hin]; [|exact (IH _ H Hin)].
    injection Hh as -> ->. apply (merge_exec_keep _ _ _ _ _ H).
    rewrite assoc_app_none by exact Ha. simpl. rewrite String.eqb_refl. reflexivity.
Qed.

Lemma merge_exec_conflict acc new k v v' :
  assoc k acc = Some v -> In (k, v') new -> v <> v' ->
  exists k0 a b, merge_executables acc new = inl (ConflictingDefinition k0 a b).
Proof.
  induction new as [|[k1 v1] new IH] in acc |- *; simpl; [tauto|].
  intros Hk Hin Hne. destruct (assoc k1 acc) as [w|] eqn:Ha.
  - destruct (String.eqb w v1) eqn:E; [|exists k1, w, v1; reflexivity].
    apply String.eqb_eq in E. subst w. destruct Hin as [Hh|Hin].
    + injection Hh as -> ->. congruence.
    + exact (IH _ Hk Hin Hne).
  - destruct Hin as [Hh|Hin].
    + injection Hh as -> ->. congruence.
    + apply (IH _ (assoc_app_some _ _ _ _ Hk) Hin Hne).
Qed.

Lemma merge_exec_noop acc new :
  (forall k v, In (k, v) new -> assoc k acc = Some v) -> merge_executables acc new = inr acc.
Proof.
  induction new as [|[k1 v1] new IH]; simpl; [reflexivity|].
  intros H. rewrite (H k1 v1 (or_introl eq_refl)), String.eqb_refl.
  apply IH. intros k v Hin. apply H. right. exact Hin.
Qed.

Lemma merge_all_exec_keep acc xs y k v :
  merge_all acc xs = inr y ->
  assoc k (bi_compiler_executables acc) = Some v ->
  assoc k (bi_compiler_executables y) = Some v.
Proof.
  induction xs as [|x xs IH] in acc |- *; simpl.
  - intros H. injection H as <-. tauto.
  - destruct (merge_info acc x) as [e|a] eqn:E; [discriminate|].
    intros H Hk. apply (IH _ H). exact (merge_exec_keep _ _ _ _ _ (merge_info_exec _ _ _ E) Hk).
Qed.

Lemma merge_all_exec_in acc xs y x k v :
  merge_all acc xs = inr y -> In x xs ->
  assoc k (bi_compiler_executables x) = Some v ->
  assoc k (bi_compiler_executables y) = Some v.
Proof.
  induction xs as [|x' xs IH] in acc |- *; simpl; [tauto|].
  destruct (merge_info acc x') as [e|a] eqn:E; [discriminate|].
  intros H [<-|Hin] Hk.
  - apply (merge_all_exec_keep _ _ _ _ _ H).
    exact (merge_exec_in _ _ _ _ _ (merge_info_exec _ _ _ E) (assoc_in _ _ _ Hk)).
  - exact (IH _ H Hin Hk).
Qed.

Lemma merge_exec_err acc new e :
  merge_executables acc new = inl e -> exists k a b, e = ConflictingDefinition k a b.
Proof.
  induction new as [|[k1 v1] new IH] in acc |- *; simpl; [discriminate|].
  destruct (assoc k1 acc) as [w|].
  - destruct (String.eqb w v1); [apply IH|].
    intros H. injection H as <-. eauto.
  - apply IH.
Qed.

Lemma merge_all_err acc xs e :
  merge_all acc xs = inl e -> exists k a b, e = ConflictingDefinition k a b.
Proof.
  induction xs as [|x xs IH] in acc |- *; simpl; [discriminate|].
  destruct (merge_info acc x) as [e'|a] eqn:E; [|apply IH].
  intros H. injection H as <-. unfold merge_info in E.
  destruct merge_executables as [e0|] eqn:Em; [|discriminate].
  injection E as <-. exact (merge_exec_err _ _ _ Em).
Qed.

(* ------------------------------------------------------------------ *)
(** ** Composition: the dependency lookups *)

Lemma lookup_info_in n c i : lookup_info n c = Some i -> In (n, i) c.
Proof.
  induction c as [|[n' i'] c IH]; simpl; [discriminate|].
  destruct (String.eqb n' n) eqn:E.
  - intros H. injection H as <-. apply String.eqb_eq in E. subst. left. reflexivity.
  - intros H. right. apply IH, H.
Qed.

Lemma dep_infos_ok computed ds :
  (forall d, In d ds -> lookup_info d computed <> None) ->
  exists is, dep_infos computed ds = inr is /\
    forall d di, In d ds -> lookup_info d computed = Some di -> In di is.
Proof.
  induction ds as [|d ds IH]; simpl.
  - intros _. exists []. split; [reflexivity|tauto].
  - intros H. destruct (lookup_info d computed) as [i|] eqn:Hd;
      [|exfalso; exact (H d (or_introl eq_refl) Hd)].
    destruct IH as [is [Hi Hin]]; [intros d' Hd'; apply H; right; exact Hd'|].
    rewrite Hi. exists (i :: is). split; [reflexivity|].
    intros d' di [<-|Hd'] Hl.
    + left. congruence.
    + right. exact (Hin _ _ Hd' Hl).
Qed.

Lemma compose_node_seq {A} `{EqDecision A} (f : build_info -> list A) :
  (forall acc x y, merge_info acc x = inr y -> f y = append_new (f acc) (f x)) ->
  forall computed r is i,
    dep_infos computed (map fst (r_requires r)) = inr is ->
    compose_node computed r = inr i ->
    f i = append_new (f empty_info) (flat_map f (is ++ [exported_info r])).
Proof.
  intros Hf computed r is i Hd Hc. unfold compose_node in Hc. rewrite Hd in Hc.
  exact (merge_all_seq f Hf _ _ _ Hc).
Qed.

Lemma compose_from_inv (P : string -> build_info -> Prop) rs :
  (forall n r computed i, find_recipe rs n = Some r ->
     (forall m j, In (m, j) computed -> P m j) ->
     compose_node computed r = inr i -> P n i) ->
  forall plan computed infos,
    (forall m j, In (m, j) computed -> P m j) ->
    compose_from rs computed plan = inr infos ->
    forall m j, In (m, j) infos -> P m j.
Proof.
  intros Hstep plan. induction plan as [|n plan IH]; intros computed infos Hc; simpl.
  - intros H. injection H as <-. exact Hc.
  - destruct (find_recipe rs n) as [r|] eqn:Hf; [|discriminate].
    destruct (compose_node computed r) as [e|i] eqn:Hn; [discriminate|].
    apply IH. intros m j Hin. apply in_app_or in Hin as [Hin|[Hh|[]]].
    + exact (Hc _ _ Hin).
    + injection Hh as <- <-. exact (Hstep _ _ _ _ Hf Hc Hn).
Qed.


Lemma repo_node_includes vc vf vn vh va n r computed i :
  find_recipe (repo_recipes vc vf vn vh va) n = Some r ->
  (forall m j, In (m, j) computed -> hal_includes_ok m j) ->
  compose_node computed r = inr i -> hal_includes_ok n i.
Proof.
  intros Hf Hc Hn. apply find_recipe_some in Hf as [Hr <-].
  simpl in Hr. destruct Hr as [<-|[<-|[<-|[<-|[<-|[]]]]]];
    split; intros Hname; try discriminate Hname.
  - assert (Hd : dep_infos computed (map fst (r_requires (cmsis_recipe vc))) = inr [])
      by reflexivity.
    rewrite (compose_node_seq _ merge_info_includes _ _ _ _ Hd Hn). reflexivity.
  - assert (Hm : map fst (r_requires (stm32g4_recipe vh)) = ["cmsis"]) by reflexivity.
    destruct (lookup_info "cmsis" computed) as [ci|] eqn:Hl.
    + assert (Hd : dep_infos computed (map fst (r_requires (stm32g4_recipe vh))) = inr [ci])
        by (rewrite Hm; simpl; rewrite Hl; reflexivity).
      rewrite (compose_node_seq _ merge_info_includes _ _ _ _ Hd Hn). simpl.
      rewrite (proj1 (Hc _ _ (lookup_info_in _ _ _ Hl)) eq_refl). reflexivity.
    + unfold compose_node in Hn. rewrite Hm in Hn. simpl in Hn. rewrite Hl in Hn.
      discriminate.
Qed.

(** C4: composing a node merges the include directories of its direct
    dependencies, in declared order, and then its own, concatenated and
    de-duplicated keeping the first occurrence, so without duplicates; in
    the repository, every successful composition gives
    stm32g4_hal_driver the include directories cmsis/include,
    stm32g4_hal_driver/include and stm32g4_hal_driver/include/Legacy, in
    this order and without duplicates. *)
Theorem hal_include_dirs_dedup :
  (forall computed r is i,
     dep_infos computed (map fst (r_requires r)) = inr is ->
     compose_node computed r = inr i ->
     bi_include_dirs i = append_new [] (flat_map bi_include_dirs (is ++ [exported_info r])) /\
     NoDup (bi_include_dirs i)) /\
  (forall vc vf vn vh va plan infos i,
     compose (repo_recipes vc vf vn vh va) plan = inr infos ->
     lookup_info "stm32g4_hal_driver" infos = Some i ->
     bi_include_dirs i = [("cmsis", "include"); ("stm32g4_hal_driver", "include");
                          ("stm32g4_hal_driver", "include/Legacy")] /\
     NoDup (bi_include_dirs i)).
Proof.
  split.
  - intros computed r is i Hd Hn.
    pose proof (compose_node_seq _ merge_info_includes _ _ _ _ Hd Hn) as E.
    split; [exact E|]. rewrite E. apply append_new_nodup. constructor.
  - intros vc vf vn vh va plan infos i Hc Hl.
    assert (Hok : hal_includes_ok "stm32g4_hal_driver" i).
    { refine (compose_from_inv hal_includes_ok _ _ plan [] infos _ Hc _ _
                (lookup_info_in _ _ _ Hl)).
      - intros n r computed j Hf Hcomp Hn. exact (repo_node_includes _ _ _ _ _ _ _ _ _ Hf Hcomp Hn).
      - intros m j []. }
    rewrite (proj2 Hok eq_refl). split; [reflexivity|].
    apply (bool_decide_unpack _). vm_compute. reflexivity.
Qed.

Lemma hal_include_dirs_dedup_witness :
  exists infos i,
    compose (repo_recipes "1.0.0" "1.0.0" "1.0.0" "1.0.0" "13.2.1")
      ["arm-none-eabi-gcc"; "cmsis"; "freertos"; "st67w6x_network_driver";
       "stm32g4_hal_driver"] = inr infos /\
    lookup_info "stm32g4_hal_driver" infos = Some i /\
    bi_include_dirs i = [("cmsis", "include"); ("stm32g4_hal_driver", "include");
                         ("stm32g4_hal_driver", "include/Legacy")] /\
    NoDup (bi_include_dirs i).
Proof.
  destruct (compose (repo_recipes "1.0.0" "1.0.0" "1.0.0" "1.0.0" "13.2.1")
              ["arm-none-eabi-gcc"; "cmsis"; "freertos"; "st67w6x_network_driver";
               "stm32g4_hal_driver"]) as [e|infos] eqn:E.
  - exfalso. vm_compute in E. discriminate E.
  - destruct (lookup_info "stm32g4_hal_driver" infos) as [i|] eqn:L.
    + exists infos, i. split; [reflexivity|]. split; [exact L|].
      exact (proj2 hal_include_dirs_dedup _ _ _ _ _ _ infos i E L).
    + exfalso. vm_compute in E. injection E as <-. vm_compute in L. discriminate L.
Defined.

(** C5: compiler executables are merged first-definition-wins: a role
    already set keeps its value, redefining it to the identical value
    changes nothing, and a different value for it fails with
    ConflictingDefinition, both in a merge and at a node whose direct
    dependency's composed build-info (covering its whole dependency
    chain) has set the role to another value than the node's own; the
    toolchain defines the roles c, cpp, asm, ar, objcopy, objdump, nm,
    ranlib, strip and size. *)
Theorem compiler_executables_first_wins :
  (forall computed r d di k v v',
     (forall d', In d' (map fst (r_requires r)) -> lookup_info d' computed <> None) ->
     In d (map fst (r_requires r)) -> lookup_info d computed = Some di ->
     assoc k (bi_compiler_executables di) = Some v ->
     assoc k (bi_compiler_executables (exported_info r)) = Some v' -> v <> v' ->
     exists k0 a b, compose_node computed r = inl (ConflictingDefinition k0 a b)) /\
  (forall acc new acc' k v,
     merge_executables acc new = inr acc' -> assoc k acc = Some v -> assoc k acc' = Some v) /\
  (forall acc new,
     (forall k v, In (k, v) new -> assoc k acc = Some v) -> merge_executables acc new = inr acc) /\
  (forall acc new k v v',
     assoc k acc = Some v -> In (k, v') new -> v <> v' ->
     exists k0 a b, merge_executables acc new = inl (ConflictingDefinition k0 a b)) /\
  (forall va, map fst (bi_compiler_executables (exported_info (arm_recipe va))) =
     ["c"; "cpp"; "asm"; "ar"; "objcopy"; "objdump"; "nm"; "ranlib"; "strip"; "size"]).
Proof.
  split; [|split; [exact merge_exec_keep|split; [exact merge_exec_noop|
                   split; [exact merge_exec_conflict|reflexivity]]]].
  intros computed r d di k v v' Hall Hd Hl Hk Hk' Hne.
  destruct (dep_infos_ok computed _ Hall) as [is [His Hin]].
  unfold compose_node. rewrite His, merge_all_app.
  destruct (merge_all empty_info is) as [e|y] eqn:Hy.
  - destruct (merge_all_err _ _ _ Hy) as [k0 [a [b ->]]]. eauto.
  - simpl. destruct (merge_info y (exported_info r)) as [e|z] eqn:Hz.
    + unfold merge_info in Hz.
      destruct merge_executables as [e0|] eqn:Em; [|discriminate].
      injection Hz as <-. destruct (merge_exec_err _ _ _ Em) as [k0 [a [b ->]]]. eauto.
    + exfalso. pose proof (merge_all_exec_in _ _ _ _ _ _ Hy (Hin _ _ Hd Hl) Hk) as Hyk.
      destruct (merge_exec_conflict _ _ _ _ _ Hyk (assoc_in _ _ _ Hk') Hne)
        as [k0 [a [b Hc]]].
      rewrite (merge_info_exec _ _ _ Hz) in Hc. discriminate.
Qed.



Lemma compiler_executables_first_wins_witness :
  (exists k0 a b, compose_node sample_computed sample_app_recipe =
                  inl (ConflictingDefinition k0 a b)) /\
  compose_node sample_computed sample_app_recipe =
    inl (ConflictingDefinition "c" "arm-none-eabi-gcc" "clang").
Proof.
  split; [|vm_compute; reflexivity].
  apply (proj1 compiler_executables_first_wins sample_computed sample_app_recipe
           "arm-none-eabi-gcc" (exported_info (arm_recipe "13.2.1"))
           "c" "arm-none-eabi-gcc" "clang").
  - intros d' [<-|[]]. vm_compute. discriminate.
  - left. reflexivity.
  - reflexivity.
  - reflexivity.
  - reflexivity.
  - discriminate.
Defined.

(** C6: flags are composed additively: a merge appends the new flags of
    each category (compile, C++, link) after the flags accumulated so far,
    which stay as a prefix, and keeps every flag of the merged
    build-info; at a node, every flag of its dependencies' composed
    build-info and of its own exported build-info is in its composed
    build-info. *)
Theorem flags_additive :
  (forall acc x y, merge_info acc x = inr y ->
     ((exists s, bi_cflags y = bi_cflags acc ++ s) /\
      (forall f, In f (bi_cflags x) -> In f (bi_cflags y))) /\
     ((exists s, bi_cxxflags y = bi_cxxflags acc ++ s) /\
      (forall f, In f (bi_cxxflags x) -> In f (bi_cxxflags y))) /\
     ((exists s, bi_linkflags y = bi_linkflags acc ++ s) /\
      (forall f, In f (bi_linkflags x) -> In f (bi_linkflags y)))) /\
  (forall computed r is i z f,
     dep_infos computed (map fst (r_requires r)) = inr is ->
     compose_node computed r = inr i ->
     In z (is ++ [exported_info r]) ->
     (In f (bi_cflags z) -> In f (bi_cflags i)) /\
     (In f (bi_cxxflags z) -> In f (bi_cxxflags i)) /\
     (In f (bi_linkflags z) -> In f (bi_linkflags i))).
Proof.
  split.
  - intros acc x y H.
    rewrite (merge_info_cflags _ _ _ H), (merge_info_cxxflags _ _ _ H),
      (merge_info_linkflags _ _ _ H).
    repeat split; try apply append_new_prefix;
      intros f Hf; apply append_new_in; right; exact Hf.
  - intros computed r is i z f Hd Hn Hz.
    rewrite (compose_node_seq _ merge_info_cflags _ _ _ _ Hd Hn),
      (compose_node_seq _ merge_info_cxxflags _ _ _ _ Hd Hn),
      (compose_node_seq _ merge_info_linkflags _ _ _ _ Hd Hn).
    repeat split; intros Hf; apply append_new_in; right; apply in_flat_map; eauto.
Qed.

Lemma flags_additive_witness :
  exists y,
    merge_info (exported_info (arm_recipe "13.2.1")) (exported_info (arm_recipe "13.2.1"))
      = inr y /\
    bi_cflags y = arm_common_flags /\
    (exists s, bi_cflags y = bi_cflags (exported_info (arm_recipe "13.2.1")) ++ s) /\
    (forall f, In f (bi_cflags (exported_info (arm_recipe "13.2.1"))) -> In f (bi_cflags y)).
Proof.
  destruct (merge_info (exported_info (arm_recipe "13.2.1"))
              (exported_info (arm_recipe "13.2.1"))) as [e|y] eqn:E.
  - exfalso. vm_compute in E. discriminate E.
  - exists y. split; [reflexivity|].
    pose proof (proj1 flags_additive _ _ _ E) as [[Hp Hi] _].
    split; [|split; [exact Hp|exact Hi]].
    vm_compute in E. injection E as <-. reflexivity.
Defined.

(* ------------------------------------------------------------------ *)
(** ** [str.strip] *)

Lemma lstrip_no_leading l :
  (forall c, head l = Some c -> py_isspace c = false) -> lstrip_chars l = l.
Proof.
  destruct l as [|x l]; [reflexivity|]. intros H. simpl.
  rewrite (H x eq_refl). reflexivity.
Qed.

Lemma lstrip_split l :
  exists a, l = a ++ lstrip_chars l /\ Forall (fun c => py_isspace c = true) a.
Proof.
  induction l as [|x l IH]; [exists []; split; [reflexivity|constructor]|].
  simpl. destruct (py_isspace x) eqn:E.
  - destruct IH as [a [Ha Hf]]. exists (x :: a). split; [simpl; f_equal; exact Ha|].
    constructor; assumption.
  - exists []. split; [reflexivity|constructor].
Qed.

(** [str.strip] leaves a string without whitespace at either end
    unchanged; in particular stripping twice is stripping once, so a
    version read by [set_version] is stable under a second strip. *)
Theorem py_strip_fixpoint :
  (forall s, trimmed s -> py_strip s = s) /\
  (forall s, py_strip (py_strip s) = py_strip s).
Proof.
  assert (Hfix : forall s, trimmed s -> py_strip s = s).
  { intros s Ht. unfold py_strip.
    assert (Hl : lstrip_chars s = s).
    { apply lstrip_no_leading. intros c Hc. apply Ht. left. exact Hc. }
    rewrite Hl.
    assert (Hr : lstrip_chars (rev s) = rev s).
    { apply lstrip_no_leading. intros c Hc.
      assert (E : last s = Some c) by (rewrite <- (rev_involutive s), last_rev_head; exact Hc).
      apply Ht. right. exact E. }
    rewrite Hr. apply rev_involutive. }
  split; [exact Hfix|]. intros s. apply Hfix, py_strip_trimmed.
Qed.

(** [str.strip] only removes characters at the two ends, and only
    whitespace: the string is the stripped string with a whitespace-only
    prefix and a whitespace-only suffix around it. *)
Theorem py_strip_infix (s : pystr) :
  exists a b,
    s = a ++ py_strip s ++ b /\
    Forall (fun c => py_isspace c = true) a /\ Forall (fun c => py_isspace c = true) b.
Proof.
  unfold py_strip.
  destruct (lstrip_split s) as [a [Ha Hfa]].
  set (m := lstrip_chars s) in *.
  destruct (lstrip_split (rev m)) as [b [Hb Hfb]].
  exists a, (rev b). split; [|split; [exact Hfa|apply Forall_rev; exact Hfb]].
  rewrite Ha at 1. f_equal.
  assert (E : rev (rev m) = rev (b ++ lstrip_chars (rev m))) by (f_equal; exact Hb).
  rewrite rev_involutive, rev_app_distr in E. exact E.
Qed.

(* ------------------------------------------------------------------ *)
(** ** [copy] patterns *)

Lemma ascii_eqb_spec a b : ascii_eqb a b = true <-> a = b.
Proof. unfold ascii_eqb. destruct (ascii_dec a b); split; congruence. Qed.

Lemma fnmatch_star_unfold p' s :
  fnmatch_chars ("*"%char :: p') s =
  fnmatch_chars p' s || match s with [] => false | _ :: s' => fnmatch_chars ("*"%char :: p') s' end.
Proof. destruct s; reflexivity. Qed.

Lemma fnmatch_star_all s : fnmatch_chars ["*"%char] s = true.
Proof.
  induction s as [|x s IH]; [reflexivity|].
  rewrite fnmatch_star_unfold, IH. apply orb_true_r.
Qed.

Lemma fnmatch_star_skip p' s :
  fnmatch_chars p' s = true -> fnmatch_chars ("*"%char :: p') s = true.
Proof. intros H. rewrite fnmatch_star_unfold, H. reflexivity. Qed.

Lemma fnmatch_lit_prefix l p s :
  no_star l = true -> fnmatch_chars (l ++ p) (l ++ s) = fnmatch_chars p s.
Proof.
  induction l as [|c l IH]; [reflexivity|].
  simpl. intros H. apply andb_true_iff in H as [Hc Hl].
  destruct (ascii_dec c "*"%char) as [->|Hne]; [discriminate Hc|].
  assert (Ecc : ascii_eqb c c = true) by (apply ascii_eqb_spec; reflexivity).
  rewrite Ecc. simpl. apply IH, Hl.
Qed.

Lemma fnmatch_lit l s :
  no_star l = true -> fnmatch_chars l s = true <-> s = l.
Proof.
  revert s. induction l as [|c l IH]; intros s H.
  - destruct s; simpl; split; congruence.
  - simpl in H. apply andb_true_iff in H as [Hc Hl]. simpl.
    destruct (ascii_dec c "*"%char) as [->|Hne]; [discriminate Hc|].
    destruct s as [|d s]; [split; congruence|].
    rewrite andb_true_iff, ascii_eqb_spec, IH by exact Hl.
    split; [intros [-> ->]; reflexivity|intros E; injection E as -> ->; auto].
Qed.

Lemma fnmatch_star_lit l s :
  no_star l = true ->
  fnmatch_chars ("*"%char :: l) s = true <-> exists pre, s = pre ++ l.
Proof.
  intros Hl. induction s as [|x s IH].
  - rewrite fnmatch_star_unfold, orb_false_r, fnmatch_lit by exact Hl. split.
    + intros <-. exists []. reflexivity.
    + intros [pre E]. destruct pre, l; try discriminate. reflexivity.
  - rewrite fnmatch_star_unfold, orb_true_iff, fnmatch_lit, IH by exact Hl. split.
    + intros [<-|[pre ->]]; [exists []; reflexivity|exists (x :: pre); reflexivity].
    + intros [[|y pre] E]; [left; exact E|].
      injection E as -> E. right. exists pre. exact E.
Qed.

Lemma join_path_app (xs ys : path) : xs <> [] -> ys <> [] ->
  list_ascii_of_string (join_path (xs ++ ys)) =
  list_ascii_of_string (join_path xs) ++ ["/"%char] ++ list_ascii_of_string (join_path ys).
Proof.
  intros Hx Hy. induction xs as [|x xs IH]; [congruence|].
  destruct xs as [|x' xs].
  - destruct ys as [|y ys]; [congruence|].
    change (join_path ([x] ++ y :: ys)) with (String.append x (String.append "/" (join_path (y :: ys)))).
    rewrite !list_ascii_of_string_append. reflexivity.
  - change (join_path ((x :: x' :: xs) ++ ys))
      with (String.append x (String.append "/" (join_path ((x' :: xs) ++ ys)))).
    change (join_path (x :: x' :: xs))
      with (String.append x (String.append "/" (join_path (x' :: xs)))).
    rewrite !list_ascii_of_string_append, IH by discriminate.
    rewrite <- !app_assoc. reflexivity.
Qed.

(** A pattern [dir/q], where [q] matches everything, matches every path
    strictly below [dir]. *)
Lemma pattern_dir_all (pat : string) (dir rel : path) (q : list ascii) :
  dir <> [] -> rel <> [] ->
  map ascii_lower (list_ascii_of_string pat) =
    map ascii_lower (list_ascii_of_string (join_path dir)) ++ ["/"%char] ++ q ->
  no_star (map ascii_lower (list_ascii_of_string (join_path dir))) = true ->
  (forall s, fnmatch_chars q s = true) ->
  pattern_matches pat (dir ++ rel) = true.
Proof.
  intros Hd Hr Hp Hn Hq. unfold pattern_matches. rewrite Hp, join_path_app by assumption.
  rewrite !map_app, fnmatch_lit_prefix by exact Hn. simpl. apply Hq.
Qed.

Lemma pattern_star_all rel : pattern_matches "*" rel = true.
Proof. apply fnmatch_star_all. Qed.

Lemma fnmatch_two_stars s : fnmatch_chars ["*"%char; "*"%char] s = true.
Proof. apply fnmatch_star_skip, fnmatch_star_all. Qed.

(** [copy]'s patterns [*.h] and [*.c], compared with [ignore_case]: a
    file is selected exactly when its relative path, in lower case, ends
    in [.h] (resp. [.c]); upper-case extensions are selected too. *)
Theorem copy_extension_patterns :
  (forall rel, pattern_matches "*.h" rel = true <->
     exists pre, map ascii_lower (list_ascii_of_string (join_path rel)) = pre ++ ["."; "h"]%char) /\
  (forall rel, pattern_matches "*.c" rel = true <->
     exists pre, map ascii_lower (list_ascii_of_string (join_path rel)) = pre ++ ["."; "c"]%char) /\
  pattern_matches "*.h" ["Inc"; "STM32G4XX_HAL.H"] = true /\
  pattern_matches "*.h" ["Inc"; "stm32g4xx_hal.hpp"] = false.
Proof.
  split; [|split; [|split; reflexivity]];
    intros rel; unfold pattern_matches; apply fnmatch_star_lit; reflexivity.
Qed.

(* ------------------------------------------------------------------ *)
(** ** What each [package] method puts in the package folder *)

Lemma apply_writes_lookup : forall ws (o o' : output_tree),
  apply_writes o ws = inr o' ->
  forall d c, o' !! d = Some c <-> o !! d = Some c \/ In (d, c) ws.
Proof.
  induction ws as [|[d0 c0] ws IH]; intros o o' H d c; simpl in H |- *.
  - injection H as <-. tauto.
  - destruct (o !! d0) as [c1|] eqn:E.
    + destruct (decide (c1 = c0)) as [<-|]; [|discriminate].
      rewrite (IH _ _ H). split; [tauto|].
      intros [H1|[Heq|H1]]; [tauto|injection Heq as -> ->; left; exact E|tauto].
    + rewrite (IH _ _ H). destruct (decide (d = d0)) as [->|Hne].
      * rewrite lookup_insert_eq, E. split.
        -- intros [Hc|Hc]; [injection Hc as <-; right; left; reflexivity|right; right; exact Hc].
        -- intros [Hc|[Heq|Hc]]; [discriminate|injection Heq as <-; left; reflexivity|right; exact Hc].
      * rewrite lookup_insert_ne by congruence. split.
        -- intros [Hc|Hc]; [left; exact Hc|right; right; exact Hc].
        -- intros [Hc|[Heq|Hc]]; [left; exact Hc|injection Heq; congruence|right; exact Hc].
Qed.

Lemma package_step_lookup rules t out :
  package_step rules t = inr out ->
  forall d c, out !! d = Some c <-> In (d, c) (all_writes rules t).
Proof.
  intros H d c. rewrite (apply_writes_lookup _ _ _ H), lookup_empty. split; [|tauto].
  intros [Hc|Hc]; [discriminate|exact Hc].
Qed.

Lemma rule_writes_keep_iff t r d c :
  cp_keep_path r = true ->
  In (d, c) (rule_writes t r) <->
  exists rel, rel <> [] /\ d = cp_dst r ++ rel /\ In (cp_src r ++ rel, c) t /\
              pattern_matches (cp_pattern r) rel = true.
Proof.
  intros Hk. unfold rule_writes. rewrite in_flat_map. split.
  - intros [[p c0] [Hp H]].
    destruct (strip_prefix (cp_src r) p) as [[|h tl]|] eqn:Hs; try destruct H.
    destruct (pattern_matches (cp_pattern r) (h :: tl)) eqn:Hm; [|destruct H].
    destruct H as [H|[]]. rewrite Hk in H. injection H as <- <-.
    apply strip_prefix_app in Hs. subst p.
    exists (h :: tl). split; [discriminate|]. auto.
  - intros [rel [Hne [-> [Ht Hm]]]]. exists (cp_src r ++ rel, c). split; [exact Ht|].
    rewrite strip_prefix_self. destruct rel as [|h tl]; [congruence|].
    rewrite Hm, Hk. left. reflexivity.
Qed.

Lemma all_writes_app l1 l2 t : all_writes (l1 ++ l2) t = all_writes l1 t ++ all_writes l2 t.
Proof. unfold all_writes. apply flat_map_app. Qed.

(** Rules copying [pat] from each subtree onto the same subtree. *)
Lemma map_keep_writes_iff pat dirs t d c :
  In (d, c) (all_writes (map (fun sub => keep pat sub sub) dirs) t) <->
  In (d, c) t /\ exists sub rel, In sub dirs /\ rel <> [] /\ d = sub ++ rel /\
                                 pattern_matches pat rel = true.
Proof.
  unfold all_writes. rewrite in_flat_map. split.
  - intros [r [Hr Hw]]. apply in_map_iff in Hr as [sub [<- Hsub]].
    apply rule_writes_keep_iff in Hw as [rel [Hne [-> [Ht Hm]]]]; [|reflexivity].
    split; [exact Ht|]. exists sub, rel. auto.
  - intros [Ht [sub [rel [Hsub [Hne [-> Hm]]]]]]. exists (keep pat sub sub).
    split; [exact (in_map (fun s => keep pat s s) _ _ Hsub)|].
    apply rule_writes_keep_iff; [reflexivity|]. exists rel. auto.
Qed.

Lemma identity_package_ok rules t :
  NoDup (map fst t) ->
  (forall r, In r rules -> cp_dst r = cp_src r /\ cp_keep_path r = true) ->
  exists out, package_step rules t = inr out.
Proof.
  intros Hnd Hr. apply (package_no_conflict _ t (fun d => d) Hnd).
  intros d c Hw. exact (identity_rules_writes _ t d c Hr Hw).
Qed.

Lemma map_keep_identity pat dirs r :
  In r (map (fun sub => keep pat sub sub) dirs) -> cp_dst r = cp_src r /\ cp_keep_path r = true.
Proof. intros Hr. apply in_map_iff in Hr as [sub [<- _]]. split; reflexivity. Qed.

Lemma arm_package_as_map : arm_package = map (fun sub => keep "*" sub sub) [[]].
Proof. reflexivity. Qed.

Lemma st67w6x_package_as_map :
  st67w6x_package = map (fun sub => keep "*" sub sub)
    [["Api"]; ["Core"]; ["Driver"; "W61_at"]; ["Driver"; "W61_bus"]].
Proof. reflexivity. Qed.

(** [ArmGnuToolchain.package] ([copy "*"] from the build folder to the
    package folder): for every build tree, the package folder holds
    exactly the files of the build tree, at the same paths, with the same
    bytes. *)
Theorem arm_package_copies_build_tree (t : file_tree) :
  NoDup (map fst t) ->
  exists out, package_step arm_package t = inr out /\
    forall p c, out !! p = Some c <-> In (p, c) t /\ p <> [].
Proof.
  intros Hnd. rewrite arm_package_as_map.
  destruct (identity_package_ok _ t Hnd (map_keep_identity "*" [[]])) as [out Hout].
  exists out. split; [exact Hout|]. intros p c.
  rewrite (package_step_lookup _ _ _ Hout), map_keep_writes_iff. split.
  - intros [Ht [sub [rel [[<-|[]] [Hne [-> _]]]]]]. auto.
  - intros [Ht Hne]. split; [exact Ht|]. exists [], p.
    split; [left; reflexivity|]. split; [exact Hne|]. split; [reflexivity|apply pattern_star_all].
Qed.

Lemma arm_package_copies_build_tree_witness :
  NoDup (map fst hal_sample_tree) /\
  exists out, package_step arm_package hal_sample_tree = inr out /\
    forall p c, out !! p = Some c <-> In (p, c) hal_sample_tree /\ p <> [].
Proof.
  assert (Hnd : NoDup (map fst hal_sample_tree)) by (vm_compute; repeat constructor; set_solver).
  split; [exact Hnd|]. exact (arm_package_copies_build_tree _ Hnd).
Defined.

(** [STM32HAL.package] of st67w6x_network_driver: the package folder
    holds exactly the files below Api, Core, Driver/W61_at and
    Driver/W61_bus, at their own paths; nothing else of the source tree
    is packaged. *)
Theorem st67w6x_package_contents (t : file_tree) :
  NoDup (map fst t) ->
  exists out, package_step st67w6x_package t = inr out /\
    forall p c, out !! p = Some c <->
      In (p, c) t /\
      exists sub rel, In sub [["Api"]; ["Core"]; ["Driver"; "W61_at"]; ["Driver"; "W61_bus"]] /\
                      rel <> [] /\ p = sub ++ rel.
Proof.
  intros Hnd. rewrite st67w6x_package_as_map.
  destruct (identity_package_ok _ t Hnd
    (map_keep_identity "*" [["Api"]; ["Core"]; ["Driver"; "W61_at"]; ["Driver"; "W61_bus"]]))
    as [out Hout].
  exists out. split; [exact Hout|]. intros p c.
  rewrite (package_step_lookup _ _ _ Hout), map_keep_writes_iff. split.
  - intros [Ht [sub [rel [Hs [Hne [-> _]]]]]]. split; [exact Ht|]. eauto.
  - intros [Ht [sub [rel [Hs [Hne ->]]]]]. split; [exact Ht|].
    exists sub, rel. repeat split; auto. apply pattern_star_all.
Qed.

Lemma st67w6x_package_contents_witness :
  NoDup (map fst hal_sample_tree) /\
  exists out, package_step st67w6x_package hal_sample_tree = inr out /\
    forall p c, out !! p = Some c <->
      In (p, c) hal_sample_tree /\
      exists sub rel, In sub [["Api"]; ["Core"]; ["Driver"; "W61_at"]; ["Driver"; "W61_bus"]] /\
                      rel <> [] /\ p = sub ++ rel.
Proof.
  assert (Hnd : NoDup (map fst hal_sample_tree)) by (vm_compute; repeat constructor; set_solver).
  split; [exact Hnd|]. exact (st67w6x_package_contents _ Hnd).
Defined.

(** [FreeRTOSConan.package]: the package folder holds exactly the
    headers below include, CMSIS_RTOS, CMSIS_RTOS_V2 and portable/GCC and
    the C sources below source, portable/GCC, portable/MemMang,
    CMSIS_RTOS and CMSIS_RTOS_V2, at their own paths. *)
Theorem freertos_package_contents (t : file_tree) :
  NoDup (map fst t) ->
  exists out, package_step freertos_package t = inr out /\
    forall p c, out !! p = Some c <->
      In (p, c) t /\
      exists sub rel, rel <> [] /\ p = sub ++ rel /\
        ((In sub [["include"]; ["CMSIS_RTOS"]; ["CMSIS_RTOS_V2"]; ["portable"; "GCC"]] /\
          pattern_matches "*.h" rel = true) \/
         (In sub [["source"]; ["portable"; "GCC"]; ["portable"; "MemMang"];
                  ["CMSIS_RTOS"]; ["CMSIS_RTOS_V2"]] /\
          pattern_matches "*.c" rel = true)).
Proof.
  intros Hnd.
  destruct (identity_package_ok freertos_package t Hnd) as [out Hout].
  { intros r Hr. unfold freertos_package in Hr. apply in_app_or in Hr as [Hr|Hr];
      exact (map_keep_identity _ _ _ Hr). }
  exists out. split; [exact Hout|]. intros p c.
  rewrite (package_step_lookup _ _ _ Hout). unfold freertos_package.
  rewrite all_writes_app, in_app_iff, !map_keep_writes_iff. split.
  - intros [[Ht [sub [rel [Hs [Hne [-> Hm]]]]]]|[Ht [sub [rel [Hs [Hne [-> Hm]]]]]]];
      (split; [exact Ht|]); exists sub, rel; auto.
  - intros [Ht [sub [rel [Hne [-> [[Hs Hm]|[Hs Hm]]]]]]]; [left|right];
      (split; [exact Ht|]); exists sub, rel; auto.
Qed.

Lemma freertos_package_contents_witness :
  NoDup (map fst hal_sample_tree) /\
  exists out, package_step freertos_package hal_sample_tree = inr out /\
    forall p c, out !! p = Some c <->
      In (p, c) hal_sample_tree /\
      exists sub rel, rel <> [] /\ p = sub ++ rel /\
        ((In sub [["include"]; ["CMSIS_RTOS"]; ["CMSIS_RTOS_V2"]; ["portable"; "GCC"]] /\
          pattern_matches "*.h" rel = true) \/
         (In sub [["source"]; ["portable"; "GCC"]; ["portable"; "MemMang"];
                  ["CMSIS_RTOS"]; ["CMSIS_RTOS_V2"]] /\
          pattern_matches "*.c" rel = true)).
Proof.
  assert (Hnd : NoDup (map fst hal_sample_tree)) by (vm_compute; repeat constructor; set_solver).
  split; [exact Hnd|]. exact (freertos_package_contents _ Hnd).
Defined.

(** [CmsisHeaderOnly.package]: the package folder holds exactly the
    headers below Include, moved to include with their relative paths. *)
Theorem cmsis_package_contents (t : file_tree) :
  NoDup (map fst t) ->
  exists out, package_step cmsis_package t = inr out /\
    forall p c, out !! p = Some c <->
      exists rel, rel <> [] /\ p = "include" :: rel /\ In ("Include" :: rel, c) t /\
                  pattern_matches "*.h" rel = true.
Proof.
  intros Hnd.
  destruct (package_no_conflict _ t cmsis_src_of Hnd (cmsis_writes t)) as [out Hout].
  exists out. split; [exact Hout|]. intros p c.
  rewrite (package_step_lookup _ _ _ Hout). unfold all_writes, cmsis_package.
  simpl flat_map. rewrite app_nil_r, rule_writes_keep_iff by reflexivity. reflexivity.
Qed.

Lemma cmsis_package_contents_witness :
  NoDup (map fst hal_sample_tree) /\
  exists out, package_step cmsis_package hal_sample_tree = inr out /\
    forall p c, out !! p = Some c <->
      exists rel, rel <> [] /\ p = "include" :: rel /\ In ("Include" :: rel, c) hal_sample_tree /\
                  pattern_matches "*.h" rel = true.
Proof.
  assert (Hnd : NoDup (map fst hal_sample_tree)) by (vm_compute; repeat constructor; set_solver).
  split; [exact Hnd|]. exact (cmsis_package_contents _ Hnd).
Defined.

(** [STM32HAL.package] of stm32g4_hal_driver: the package folder holds
    exactly every file below Src, moved to src, and the headers below Inc
    (Inc/Legacy included), moved to include, with their relative paths;
    the third rule (Inc/Legacy to include/Legacy) adds no file. *)
Theorem stm32g4_package_contents (t : file_tree) :
  NoDup (map fst t) ->
  exists out, package_step stm32g4_package t = inr out /\
    forall p c, out !! p = Some c <->
      (exists rel, rel <> [] /\ p = "src" :: rel /\ In ("Src" :: rel, c) t) \/
      (exists rel, rel <> [] /\ p = "include" :: rel /\ In ("Inc" :: rel, c) t /\
                   pattern_matches "*.h" rel = true).
Proof.
  intros Hnd.
  destruct (package_no_conflict _ t stm32g4_src_of Hnd (stm32g4_writes t)) as [out Hout].
  exists out. split; [exact Hout|]. intros p c.
  rewrite (package_step_lookup _ _ _ Hout). unfold all_writes, stm32g4_package.
  simpl flat_map. rewrite app_nil_r, !in_app_iff, !rule_writes_keep_iff by reflexivity.
  cbn [cp_src cp_dst cp_pattern keep]. split.
  - intros [[rel [Hne [-> [Ht _]]]]|[[rel [Hne [-> [Ht Hm]]]]|[rel [Hne [-> [Ht Hm]]]]]].
    + left. exists rel. auto.
    + right. exists rel. auto.
    + right. exists ("Legacy" :: rel). split; [discriminate|]. split; [reflexivity|].
      split; [exact Ht|]. apply pattern_h_under; assumption.
  - intros [[rel [Hne [-> Ht]]]|[rel [Hne [-> [Ht Hm]]]]].
    + left. exists rel. repeat split; auto. apply pattern_star_all.
    + right. left. exists rel. auto.
Qed.

Lemma stm32g4_package_contents_witness :
  NoDup (map fst hal_sample_tree) /\
  exists out, package_step stm32g4_package hal_sample_tree = inr out /\
    forall p c, out !! p = Some c <->
      (exists rel, rel <> [] /\ p = "src" :: rel /\ In ("Src" :: rel, c) hal_sample_tree) \/
      (exists rel, rel <> [] /\ p = "include" :: rel /\ In ("Inc" :: rel, c) hal_sample_tree /\
                   pattern_matches "*.h" rel = true).
Proof.
  assert (Hnd : NoDup (map fst hal_sample_tree)) by (vm_compute; repeat constructor; set_solver).
  split; [exact Hnd|]. exact (stm32g4_package_contents _ Hnd).
Defined.

(* ------------------------------------------------------------------ *)
(** ** Packaged files and the directories [package_info] exports *)

Lemma freertos_exported_dirs v : exported_dirs (freertos_recipe v) = ["include"; "include"].
Proof. reflexivity. Qed.

(** FreeRTOS packages the headers of CMSIS_RTOS, CMSIS_RTOS_V2 and
    portable/GCC and all its C sources, but its [package_info] (which
    only empties [libdirs] and [bindirs] and appends ["include"]) leaves
    [srcdirs] at Conan's default, the empty list, and exports [include]
    (twice) as its only include directory: these packaged files lie
    below no exported directory. *)
Theorem freertos_packaged_outside_exported_dirs v (t : file_tree) :
  NoDup (map fst t) ->
  includedirs (st_cpp (freertos_package_info default_info_state)) = ["include"; "include"] /\
  srcdirs (st_cpp (freertos_package_info default_info_state)) = [] /\
  exists out, package_step freertos_package t = inr out /\
    (forall sub rel c,
       In sub [["CMSIS_RTOS"]; ["CMSIS_RTOS_V2"]; ["portable"; "GCC"]] -> rel <> [] ->
       In (sub ++ rel, c) t -> pattern_matches "*.h" rel = true ->
       out !! (sub ++ rel) = Some c /\
       forall d, In d (exported_dirs (freertos_recipe v)) -> ~ below d (sub ++ rel)) /\
    (forall sub rel c,
       In sub [["source"]; ["portable"; "GCC"]; ["portable"; "MemMang"];
               ["CMSIS_RTOS"]; ["CMSIS_RTOS_V2"]] -> rel <> [] ->
       In (sub ++ rel, c) t -> pattern_matches "*.c" rel = true ->
       out !! (sub ++ rel) = Some c /\
       forall d, In d (exported_dirs (freertos_recipe v)) -> ~ below d (sub ++ rel)).
Proof.
  intros Hnd. split; [reflexivity|]. split; [reflexivity|].
  destruct (identity_package_ok freertos_package t Hnd) as [out Hout].
  { intros r Hr. unfold freertos_package in Hr. apply in_app_or in Hr as [Hr|Hr];
      exact (map_keep_identity _ _ _ Hr). }
  assert (Hlk : forall p c, out !! p = Some c <->
     In (p, c) (all_writes (map (fun sub => keep "*.h" sub sub)
       [["include"]; ["CMSIS_RTOS"]; ["CMSIS_RTOS_V2"]; ["portable"; "GCC"]]) t) \/
     In (p, c) (all_writes (map (fun sub => keep "*.c" sub sub)
       [["source"]; ["portable"; "GCC"]; ["portable"; "MemMang"];
        ["CMSIS_RTOS"]; ["CMSIS_RTOS_V2"]]) t)).
  { intros p c. rewrite (package_step_lookup _ _ _ Hout). unfold freertos_package.
    rewrite all_writes_app, in_app_iff. reflexivity. }
  exists out. split; [exact Hout|]. split.
  - intros sub rel c Hs Hne Ht Hm. split.
    + apply Hlk. left. apply map_keep_writes_iff. split; [exact Ht|].
      exists sub, rel. split; [simpl in Hs |- *; tauto|]. auto.
    + intros d Hd [rel' [_ E]]. rewrite freertos_exported_dirs in Hd.
      destruct Hd as [<-|[<-|[]]]; change (dir_components "include") with ["include"] in E;
        simpl in Hs; destruct Hs as [<-|[<-|[<-|[]]]]; discriminate E.
  - intros sub rel c Hs Hne Ht Hm. split.
    + apply Hlk. right. apply map_keep_writes_iff. split; [exact Ht|].
      exists sub, rel. auto.
    + intros d Hd [rel' [_ E]]. rewrite freertos_exported_dirs in Hd.
      destruct Hd as [<-|[<-|[]]]; change (dir_components "include") with ["include"] in E;
        simpl in Hs; destruct Hs as [<-|[<-|[<-|[<-|[<-|[]]]]]]; discriminate E.
Qed.

Lemma freertos_packaged_outside_exported_dirs_witness :
  NoDup (map fst hal_sample_tree) /\
  includedirs (st_cpp (freertos_package_info default_info_state)) = ["include"; "include"] /\
  srcdirs (st_cpp (freertos_package_info default_info_state)) = [] /\
  exists out, package_step freertos_package hal_sample_tree = inr out /\
    (forall sub rel c,
       In sub [["CMSIS_RTOS"]; ["CMSIS_RTOS_V2"]; ["portable"; "GCC"]] -> rel <> [] ->
       In (sub ++ rel, c) hal_sample_tree -> pattern_matches "*.h" rel = true ->
       out !! (sub ++ rel) = Some c /\
       forall d, In d (exported_dirs (freertos_recipe "11.1.0")) -> ~ below d (sub ++ rel)) /\
    (forall sub rel c,
       In sub [["source"]; ["portable"; "GCC"]; ["portable"; "MemMang"];
               ["CMSIS_RTOS"]; ["CMSIS_RTOS_V2"]] -> rel <> [] ->
       In (sub ++ rel, c) hal_sample_tree -> pattern_matches "*.c" rel = true ->
       out !! (sub ++ rel) = Some c /\
       forall d, In d (exported_dirs (freertos_recipe "11.1.0")) -> ~ below d (sub ++ rel)).
Proof.
  assert (Hnd : NoDup (map fst hal_sample_tree)) by (vm_compute; repeat constructor; set_solver).
  split; [exact Hnd|]. exact (freertos_packaged_outside_exported_dirs "11.1.0" _ Hnd).
Defined.

(** For cmsis, st67w6x_network_driver and stm32g4_hal_driver, every file
    the [package] method puts in the package folder lies below one of
    the include or source directories the recipe's [package_info]
    exports: [include] for cmsis, [Api], [Core], [Driver/W61_at] and
    [Driver/W61_bus] (the last three also as source directories) for
    st67w6x_network_driver, [include], [include/Legacy] and the source
    directory [src] for stm32g4_hal_driver. *)
Theorem packaged_files_below_exported_dirs v :
  exported_dirs (cmsis_recipe v) = ["include"] /\
  exported_dirs (st67w6x_recipe v) =
    ["Api"; "Core"; "Driver/W61_at"; "Driver/W61_bus"; "Core"; "Driver/W61_at"; "Driver/W61_bus"] /\
  exported_dirs (stm32g4_recipe v) = ["include"; "include/Legacy"; "src"] /\
  forall r (t : file_tree),
  In r [cmsis_recipe v; st67w6x_recipe v; stm32g4_recipe v] ->
  NoDup (map fst t) ->
  exists out, package_step (r_package r) t = inr out /\
    forall p c, out !! p = Some c -> exists d, In d (exported_dirs r) /\ below d p.
Proof.
  split; [reflexivity|]. split; [reflexivity|]. split; [reflexivity|].
  intros r t Hr Hnd. simpl in Hr.
  destruct Hr as [<-|[<-|[<-|[]]]]; unfold cmsis_recipe, st67w6x_recipe, stm32g4_recipe;
    cbn [r_package].
  - destruct (package_no_conflict _ t cmsis_src_of Hnd (cmsis_writes t)) as [out Hout].
    exists out. split; [exact Hout|]. intros p c Hp.
    apply (package_step_lookup _ _ _ Hout) in Hp. unfold all_writes, cmsis_package in Hp.
    simpl flat_map in Hp. rewrite app_nil_r in Hp.
    apply rule_writes_keep_iff in Hp as [rel [Hne [-> _]]]; [|reflexivity].
    exists "include". split; [left; reflexivity|]. exists rel. auto.
  - rewrite st67w6x_package_as_map.
    destruct (identity_package_ok _ t Hnd
      (map_keep_identity "*" [["Api"]; ["Core"]; ["Driver"; "W61_at"]; ["Driver"; "W61_bus"]]))
      as [out Hout].
    exists out. split; [exact Hout|]. intros p c Hp.
    apply (package_step_lookup _ _ _ Hout), map_keep_writes_iff in Hp
      as [_ [sub [rel [Hs [Hne [-> _]]]]]].
    simpl in Hs. destruct Hs as [<-|[<-|[<-|[<-|[]]]]].
    + exists "Api". split; [simpl; tauto|]. exists rel. auto.
    + exists "Core". split; [simpl; tauto|]. exists rel. auto.
    + exists "Driver/W61_at". split; [simpl; tauto|]. exists rel. auto.
    + exists "Driver/W61_bus". split; [simpl; tauto|]. exists rel. auto.
  - destruct (package_no_conflict _ t stm32g4_src_of Hnd (stm32g4_writes t)) as [out Hout].
    exists out. split; [exact Hout|]. intros p c Hp.
    apply (package_step_lookup _ _ _ Hout) in Hp. unfold all_writes, stm32g4_package in Hp.
    simpl flat_map in Hp. rewrite app_nil_r, !in_app_iff, !rule_writes_keep_iff in Hp
      by reflexivity.
    cbn [cp_src cp_dst cp_pattern keep] in Hp.
    destruct Hp as [[rel [Hne [-> _]]]|[[rel [Hne [-> _]]]|[rel [Hne [-> _]]]]].
    + exists "src". split; [simpl; tauto|]. exists rel. auto.
    + exists "include". split; [simpl; tauto|]. exists rel. auto.
    + exists "include". split; [simpl; tauto|]. exists ("Legacy" :: rel).
      split; [discriminate|reflexivity].
Qed.

Lemma packaged_files_below_exported_dirs_witness :
  In (stm32g4_recipe "1.2.0")
     [cmsis_recipe "1.2.0"; st67w6x_recipe "1.2.0"; stm32g4_recipe "1.2.0"] /\
  NoDup (map fst hal_sample_tree) /\
  exists out, package_step (r_package (stm32g4_recipe "1.2.0")) hal_sample_tree = inr out /\
    forall p c, out !! p = Some c ->
      exists d, In d (exported_dirs (stm32g4_recipe "1.2.0")) /\ below d p.
Proof.
  assert (Hin : In (stm32g4_recipe "1.2.0")
                   [cmsis_recipe "1.2.0"; st67w6x_recipe "1.2.0"; stm32g4_recipe "1.2.0"])
    by (simpl; tauto).
  assert (Hnd : NoDup (map fst hal_sample_tree)) by (vm_compute; repeat constructor; set_solver).
  split; [exact Hin|]. split; [exact Hnd|].
  exact (proj2 (proj2 (proj2 (packaged_files_below_exported_dirs "1.2.0"))) _ _ Hin Hnd).
Defined.

(* ------------------------------------------------------------------ *)
(** ** [exports_sources] and [package] *)

Lemma rule_writes_cons f t r : rule_writes (f :: t) r = rule_writes [f] r ++ rule_writes t r.
Proof. unfold rule_writes. simpl. rewrite app_nil_r. reflexivity. Qed.

Lemma rule_writes_filter (P : path * list Byte.byte -> bool) t r :
  (forall f, In f t -> P f = false -> rule_writes [f] r = []) ->
  rule_writes (List.filter P t) r = rule_writes t r.
Proof.
  induction t as [|f t IH]; intros H; [reflexivity|]. simpl List.filter.
  rewrite (rule_writes_cons f t). destruct (P f) eqn:E.
  - rewrite rule_writes_cons, IH; [reflexivity|]. intros g Hg. apply H. right. exact Hg.
  - rewrite (H f (or_introl eq_refl) E), IH; [reflexivity|]. intros g Hg. apply H. right. exact Hg.
Qed.

(** When every file a rule reads below its [src] is exported, packaging
    the exported files performs the same writes as packaging the whole
    recipe folder. *)
Lemma exports_cover_rules pats rules :
  (forall r, In r rules -> cp_keep_path r = true /\
     forall rel, rel <> [] -> existsb (fun pat => pattern_matches pat (cp_src r ++ rel)) pats = true) ->
  forall t, all_writes rules (exported_files pats t) = all_writes rules t.
Proof.
  intros Hr t. unfold all_writes. induction rules as [|r rules IH]; [reflexivity|].
  simpl. rewrite IH by (intros r' Hr'; apply Hr; right; exact Hr'). f_equal.
  unfold exported_files. apply rule_writes_filter. intros [p c] _ Hp.
  destruct (Hr r (or_introl eq_refl)) as [Hk Hx].
  destruct (rule_writes [(p, c)] r) as [|[d c'] ws] eqn:E; [reflexivity|exfalso].
  assert (Hw : In (d, c') (rule_writes [(p, c)] r)) by (rewrite E; left; reflexivity).
  apply rule_writes_keep_iff in Hw as [rel [Hne [_ [Ht _]]]]; [|exact Hk].
  destruct Ht as [Ht|[]]. injection Ht as -> ->.
  rewrite (Hx rel Hne) in Hp. discriminate.
Qed.

Ltac dir_pattern :=
  lazymatch goal with
  | |- pattern_matches _ (?a :: ?b :: ?rel) = true => change (a :: b :: rel) with ([a; b] ++ rel)
  | |- pattern_matches _ (?a :: ?rel) = true => change (a :: rel) with ([a] ++ rel)
  | |- _ => idtac
  end;
  first
    [ apply (pattern_dir_all _ _ _ ["*"%char]);
        [discriminate|assumption|reflexivity|reflexivity|exact fnmatch_star_all]
    | apply (pattern_dir_all _ _ _ ["*"%char; "*"%char]);
        [discriminate|assumption|reflexivity|reflexivity|exact fnmatch_two_stars] ].

(** The [exports_sources] of cmsis, freertos, st67w6x_network_driver and
    stm32g4_hal_driver ship every file their [package] method copies:
    for every recipe folder, packaging the exported files performs
    exactly the writes of packaging the whole folder, so the package
    folder is the same. *)
Theorem exports_sources_cover_package v r pats :
  In (r, pats) [(cmsis_recipe v, cmsis_exports_sources);
                (freertos_recipe v, freertos_exports_sources);
                (st67w6x_recipe v, st67w6x_exports_sources);
                (stm32g4_recipe v, stm32g4_exports_sources)] ->
  forall t, all_writes (r_package r) (exported_files pats t) = all_writes (r_package r) t /\
            package_step (r_package r) (exported_files pats t) = package_step (r_package r) t.
Proof.
  intros Hr t.
  enough (E : all_writes (r_package r) (exported_files pats t) = all_writes (r_package r) t)
    by (split; [exact E|unfold package_step, package_into; rewrite E; reflexivity]).
  apply exports_cover_rules. intros rule Hrule.
  simpl in Hr. destruct Hr as [Hr|[Hr|[Hr|[Hr|[]]]]]; injection Hr as <- <-;
    cbn [r_package cmsis_recipe freertos_recipe st67w6x_recipe stm32g4_recipe] in Hrule.
  - destruct Hrule as [<-|[]]. split; [reflexivity|]. intros rel Hne.
    simpl existsb. rewrite orb_false_r. dir_pattern.
  - split; [unfold freertos_package in Hrule; apply in_app_or in Hrule as [H|H];
            exact (proj2 (map_keep_identity _ _ _ H))|].
    intros rel Hne. simpl existsb. rewrite pattern_star_all. reflexivity.
  - split; [rewrite st67w6x_package_as_map in Hrule; exact (proj2 (map_keep_identity _ _ _ Hrule))|].
    intros rel Hne. apply existsb_exists.
    simpl in Hrule. destruct Hrule as [<-|[<-|[<-|[<-|[]]]]].
    + exists "Api/**". split; [simpl; tauto|]. dir_pattern.
    + exists "Core/**". split; [simpl; tauto|]. dir_pattern.
    + exists "Driver/W61_at/**". split; [simpl; tauto|]. dir_pattern.
    + exists "Driver/W61_bus/**". split; [simpl; tauto|]. dir_pattern.
  - simpl in Hrule. destruct Hrule as [<-|[<-|[<-|[]]]]; (split; [reflexivity|]);
      intros rel Hne; apply existsb_exists.
    + exists "Src/**". split; [simpl; tauto|]. dir_pattern.
    + exists "Inc/**". split; [simpl; tauto|]. dir_pattern.
    + exists "Inc/Legacy/**". split; [simpl; tauto|]. dir_pattern.
Qed.

Lemma exports_sources_cover_package_witness :
  In (stm32g4_recipe "1.2.0", stm32g4_exports_sources)
     [(cmsis_recipe "1.2.0", cmsis_exports_sources);
      (freertos_recipe "1.2.0", freertos_exports_sources);
      (st67w6x_recipe "1.2.0", st67w6x_exports_sources);
      (stm32g4_recipe "1.2.0", stm32g4_exports_sources)] /\
  package_step stm32g4_package (exported_files stm32g4_exports_sources hal_sample_tree) =
  package_step stm32g4_package hal_sample_tree.
Proof.
  assert (Hin : In (stm32g4_recipe "1.2.0", stm32g4_exports_sources)
     [(cmsis_recipe "1.2.0", cmsis_exports_sources);
      (freertos_recipe "1.2.0", freertos_exports_sources);
      (st67w6x_recipe "1.2.0", st67w6x_exports_sources);
      (stm32g4_recipe "1.2.0", stm32g4_exports_sources)]) by (simpl; tauto).
  split; [exact Hin|]. exact (proj2 (exports_sources_cover_package _ _ _ Hin hal_sample_tree)).
Defined.

(* ------------------------------------------------------------------ *)
(** ** The exact pin [cmsis/1.0.0] *)

(** stm32g4_hal_driver requires exactly [cmsis/1.0.0] (a plain
    reference, no version range): whatever the
    versions of the other recipes, the repository's recipe set resolves,
    to the build plan arm-none-eabi-gcc, cmsis, freertos,
    st67w6x_network_driver, stm32g4_hal_driver, when cmsis's version is
    1.0.0, and fails with UnresolvedDependency for cmsis pinned at 1.0.0
    for any other cmsis version. *)
Theorem cmsis_pin_resolution vc vf vn vh va :
  r_requires (stm32g4_recipe vh) = [("cmsis", Some "1.0.0")] /\
  (vc = "1.0.0" ->
   resolve (repo_recipes vc vf vn vh va) =
   inr ["arm-none-eabi-gcc"; "cmsis"; "freertos"; "st67w6x_network_driver";
        "stm32g4_hal_driver"]) /\
  (vc <> "1.0.0" ->
   resolve (repo_recipes vc vf vn vh va) = inl (UnresolvedDependency "cmsis" (Some "1.0.0"))).
Proof.
  split; [reflexivity|]. split.
  - intros ->. vm_compute. reflexivity.
  - intros Hne.
    assert (E : String.eqb "1.0.0" vc = false)
      by (apply String.eqb_neq; intros H; apply Hne; symmetry; exact H).
    assert (Hok : requirement_ok (repo_recipes vc vf vn vh va) ("cmsis", Some "1.0.0") =
                  String.eqb "1.0.0" vc) by reflexivity.
    assert (Hu : unresolved (repo_recipes vc vf vn vh va) =
                 if negb (requirement_ok (repo_recipes vc vf vn vh va) ("cmsis", Some "1.0.0"))
                 then [("cmsis", Some "1.0.0")] else []) by reflexivity.
    rewrite Hok, E in Hu.
    unfold resolve. rewrite Hu. reflexivity.
Qed.

Lemma cmsis_pin_resolution_witness :
  resolve (repo_recipes "1.0.1" "11.1.0" "1.0.0" "1.2.0" "13.2.1") =
    inl (UnresolvedDependency "cmsis" (Some "1.0.0")) /\
  resolve (repo_recipes "1.0.0" "11.1.0" "1.0.0" "1.2.0" "13.2.1") =
    inr ["arm-none-eabi-gcc"; "cmsis"; "freertos"; "st67w6x_network_driver";
         "stm32g4_hal_driver"].
Proof.
  split.
  - apply (proj2 (proj2 (cmsis_pin_resolution "1.0.1" "11.1.0" "1.0.0" "1.2.0" "13.2.1"))).
    discriminate.
  - apply (proj1 (proj2 (cmsis_pin_resolution "1.0.0" "11.1.0" "1.0.0" "1.2.0" "13.2.1"))).
    reflexivity.
Defined.
